(** * Lazy ECR importer and ECR credential cache

    A shallow embedding of

    - [registry/proxy/proxyauth_ecr.go] (package [proxy]): the credential
      store [ecrCredentials] with its method [Basic], and the URL
      classifiers [parseECRURL] and [isECRURL];
    - the storage middleware of package [ecrmirror]: [GetContent] and
      [pullAndImportFromECR].

    Go strings are byte sequences, modelled as [list ascii].  An [error]
    is modelled by the text its [Error()] method returns.  The functions
    of Go's standard library and of the AWS SDK that the code calls are
    either written out ([strings], the fragment of [regexp] the two
    patterns use) or taken as parameters ([url.Parse],
    [base64.StdEncoding.DecodeString], the ECR client, the wrapped
    storage driver, [exec.Cmd.Run]). *)

From Stdlib Require Import Ascii String List ZArith Lia Bool Arith.
Import ListNotations.

Set Implicit Arguments.

(** ** Data *)

Definition str := list ascii.

(** A Go string literal. *)
Definition lit (s : string) : str := list_ascii_of_string s.

Definition error := str.

Inductive result (A : Type) : Type :=
| Ok (a : A)
| Err (e : error).
Arguments Ok {A} a.
Arguments Err {A} e.

(** ** Package [strings] *)

Module Strings.

(** [s] minus the prefix [p], when [s] starts with [p]. *)
Fixpoint strip_prefix (p s : str) : option str :=
  match p with
  | [] => Some s
  | a :: p' =>
      match s with
      | [] => None
      | b :: s' => if Ascii.eqb a b then strip_prefix p' s' else None
      end
  end.

Definition HasPrefix (s prefix : str) : bool :=
  match strip_prefix prefix s with Some _ => true | None => false end.

(** [strings.Index]: offset of the first occurrence of [substr] in [s];
    [None] stands for -1. *)
Fixpoint Index (s substr : str) : option nat :=
  if HasPrefix s substr then Some 0
  else match s with
       | [] => None
       | _ :: s' => option_map S (Index s' substr)
       end.

Definition Contains (s substr : str) : bool :=
  match Index s substr with Some _ => true | None => false end.

(** [strings.SplitN s sep n] for a non-empty [sep] and [n >= 0]: at most
    [n] substrings, the last one the unsplit remainder; [n = 0] gives
    the nil slice. *)
Fixpoint SplitN (s sep : str) (n : nat) : list str :=
  match n with
  | 0 => []
  | 1 => [s]
  | S n' =>
      match Index s sep with
      | None => [s]
      | Some m => firstn m s :: SplitN (skipn (m + length sep) s) sep n'
      end
  end.

End Strings.

(** ** Package [regexp]: the fragment used by the two patterns

    Go's [regexp] returns the match a backtracking search finds first
    (leftmost, greedy operators preferring more).  The matcher below is
    that search, in continuation-passing style.  It works on bytes: the
    classes used here ([\d], [.], [[^.]]) are delimited by ASCII
    literals, and a byte of a multi-byte or invalid UTF-8 sequence is
    never an ASCII byte, so the byte-wise and the rune-wise match
    coincide. *)

Module Regexp.

Inductive class :=
| Digit              (* \d *)
| AnyNotNL           (* .  (no s flag) *)
| NotChar (c : ascii) (* [^c] *).

Definition is_digit (c : ascii) : bool :=
  (48 <=? nat_of_ascii c) && (nat_of_ascii c <=? 57).

Definition newline : ascii := ascii_of_nat 10.

Definition in_class (cl : class) (c : ascii) : bool :=
  match cl with
  | Digit => is_digit c
  | AnyNotNL => negb (Ascii.eqb c newline)
  | NotChar x => negb (Ascii.eqb c x)
  end.

Inductive regex :=
| BeginText                 (* ^ (no m flag) *)
| EndText                   (* $ (no m flag) *)
| Lit (l : str)             (* literal text *)
| Plus (cl : class)         (* cl+, greedy *)
| Group (r : regex)         (* ( r ), capturing *)
| Cat (r1 r2 : regex).

Section Run.
Variable R : Type.

(** One or more characters satisfying [p], the longest run first. *)
Fixpoint plus_greedy (p : ascii -> bool) (s : str) (k : str -> option R)
  : option R :=
  match s with
  | [] => None
  | c :: s' =>
      if p c then
        match plus_greedy p s' k with
        | Some x => Some x
        | None => k s'
        end
      else None
  end.

(** [run inp r s k]: match [r] at the suffix [s] of the input [inp]; the
    continuation receives the groups captured inside [r], in the order
    of their opening parentheses, and the rest of the input. *)
Fixpoint run (inp : str) (r : regex) (s : str)
  (k : list str -> str -> option R) : option R :=
  match r with
  | BeginText => if length s =? length inp then k [] s else None
  | EndText => match s with [] => k [] s | _ :: _ => None end
  | Lit l =>
      match Strings.strip_prefix l s with
      | Some rest => k [] rest
      | None => None
      end
  | Plus cl => plus_greedy (in_class cl) s (fun rest => k [] rest)
  | Group r1 =>
      run inp r1 s
        (fun caps rest => k (firstn (length s - length rest) s :: caps) rest)
  | Cat r1 r2 =>
      run inp r1 s
        (fun c1 rest1 => run inp r2 rest1 (fun c2 rest2 => k (c1 ++ c2) rest2))
  end.

End Run.

(** The text of the whole match followed by the text of each group. *)
Definition match_at (inp : str) (r : regex) (s : str) : option (list str) :=
  run inp r s
    (fun caps rest => Some (firstn (length s - length rest) s :: caps)).

(** Leftmost match: try every start offset in turn. *)
Fixpoint search (inp : str) (r : regex) (s : str) : option (list str) :=
  match match_at inp r s with
  | Some m => Some m
  | None =>
      match s with
      | [] => None
      | _ :: s' => search inp r s'
      end
  end.

(** [Regexp.FindStringSubmatch]; the nil slice is the empty list. *)
Definition FindStringSubmatch (r : regex) (s : str) : list str :=
  match search s r s with
  | Some m => m
  | None => []
  end.

(** [Regexp.MatchString]. *)
Definition MatchString (r : regex) (s : str) : bool :=
  match search s r s with
  | Some _ => true
  | None => false
  end.

(** The shape both patterns of the repository have:
    [^ pre (c1+) mid (c2+) suf $]. *)
Definition two_groups (pre : str) (c1 : class) (mid : str) (c2 : class)
  (suf : str) : regex :=
  Cat BeginText
    (Cat (Lit pre)
       (Cat (Group (Plus c1))
          (Cat (Lit mid)
             (Cat (Group (Plus c2))
                (Cat (Lit suf) EndText))))).

(** [s] is [pre g1 mid g2 suf], each group a non-empty run of its class. *)
Definition splits (pre : str) (c1 : class) (mid : str) (c2 : class)
  (suf : str) (s g1 g2 : str) : Prop :=
  s = pre ++ g1 ++ mid ++ g2 ++ suf /\ g1 <> [] /\ g2 <> [] /\
  forallb (in_class c1) g1 = true /\ forallb (in_class c2) g2 = true.

End Regexp.

(** ** Package [time]

    An instant is its number of nanoseconds since the Unix epoch, a
    duration a number of nanoseconds ([int64] in Go; no arithmetic is
    done on durations).  The instants stay far from the ends of the
    range of [time.Time], where [Add] would saturate, and [Before]
    compares instants: the monotonic reading that [time.Now] attaches
    orders two instants as their wall clock does. *)

Module GoTime.

Definition Time := Z.
Definition Duration := Z.

Definition Hour : Duration := 3600000000000%Z.

(** The zero value of [time.Time], January 1 of year 1, 00:00 UTC. *)
Definition zero : Time := (-62135596800000000000)%Z.

Definition Add (t : Time) (d : Duration) : Time := (t + d)%Z.
Definition Before (t u : Time) : bool := (t <? u)%Z.

End GoTime.

(** ** Package [proxy]: [proxyauth_ecr.go] *)

Module Proxy.
Import Regexp GoTime.

(** [^(\d+)\.dkr\.ecr\.([^.]+)\.amazonaws\.com$]; nothing stands between
    [^] and the first group. *)
Definition ecrURLPattern : regex :=
  two_groups [] Digit (lit ".dkr.ecr.") (NotChar ".") (lit ".amazonaws.com").

(** The fields of [url.URL] the code reads. *)
Record URL := { Host : str }.

(** [ecr.AuthorizationData]; both fields are pointers. *)
Record AuthorizationData := {
  AuthorizationToken : option str;
  ExpiresAt : option Time
}.

Record GetAuthorizationTokenInput := { RegistryIds : list str }.

(** [ecr.GetAuthorizationTokenOutput], reduced to its field
    [AuthorizationData]. *)
Definition GetAuthorizationTokenOutput := list AuthorizationData.

(** [aws.StringValue] and [aws.TimeValue]. *)
Definition StringValue (p : option str) : str :=
  match p with Some s => s | None => [] end.
Definition TimeValue (p : option Time) : Time :=
  match p with Some t => t | None => zero end.

(** The struct without its mutex and its client: the mutex is held for
    the whole of [Basic], the client is the argument [client] of
    [Basic]. *)
Record ecrCredentials := {
  registryID : str;
  lifetime : option Duration;
  username : str;
  password : str;
  expiry : Time
}.

Inductive level := ErrorLevel | DebugLevel.
Inductive logarg := AStr (s : str) | ATime (t : Time).

(** What a call of [Basic] does to the outside, in order. *)
Inductive event :=
| GetAuthorizationToken (input : GetAuthorizationTokenInput)
| Log (lvl : level) (format : str) (args : list logarg).

Definition is_empty (s : str) : bool :=
  match s with [] => true | _ :: _ => false end.

Definition is_nil (A : Type) (p : option A) : bool :=
  match p with None => true | Some _ => false end.

(** The request [Basic] builds: restricted to the registry when its
    identifier is known. *)
Definition tokenInput (c : ecrCredentials) : GetAuthorizationTokenInput :=
  {| RegistryIds :=
       if negb (is_empty (registryID c)) then [registryID c] else [] |}.

Section Library.

(** [url.Parse] and [base64.StdEncoding.DecodeString]. *)
Variable url_Parse : str -> result URL.
Variable base64_DecodeString : str -> result str.

(** The test of [Basic] on the cache (line 40). *)
Definition cached (c : ecrCredentials) (now : Time) : bool :=
  negb (is_empty (username c)) && negb (is_empty (password c))
  && (is_nil (lifetime c) || Before now (expiry c)).

(** What [Basic] does with the answer [(result, err)] of
    [GetAuthorizationToken] (lines 51 to 90): the pair returned, the
    struct after it and the lines logged. *)
Definition finishRefresh (c : ecrCredentials) (now : Time)
  (answer : result GetAuthorizationTokenOutput)
  : (str * str) * ecrCredentials * list event :=
  match answer with
  | Err err =>
      (([], []), c,
       [Log ErrorLevel (lit "failed to get ECR authorization token: %v")
          [AStr err]])
  | Ok result =>
      match result with
      | [] =>
          (([], []), c,
           [Log ErrorLevel (lit "no authorization data returned from ECR") []])
      | authData :: _ =>
          let token := StringValue (AuthorizationToken authData) in
          let expiresAt := TimeValue (ExpiresAt authData) in
          match base64_DecodeString token with
          | Err err =>
              (([], []), c,
               [Log ErrorLevel
                  (lit "failed to decode ECR authorization token: %v")
                  [AStr err]])
          | Ok decoded =>
              let parts := Strings.SplitN decoded (lit ":") 2 in
              if negb (length parts =? 2) then
                (([], []), c,
                 [Log ErrorLevel
                    (lit "invalid ECR authorization token format") []])
              else
                let username' := nth 0 parts [] in
                let password' := nth 1 parts [] in
                let expiry' :=
                  match lifetime c with
                  | Some d =>
                      if (d >? 0)%Z then Add now d
                      else Add expiresAt (- Hour)%Z
                  | None => Add expiresAt (- Hour)%Z
                  end in
                ((username', password'),
                 {| registryID := registryID c;
                    lifetime := lifetime c;
                    username := username';
                    password := password';
                    expiry := expiry' |},
                 [Log DebugLevel
                    (lit "ECR credentials refreshed, expires at: %v")
                    [ATime expiry']])
          end
      end
  end.

(** [Basic], run at clock reading [now] against a client that answers
    [client input].  Returns the pair, the struct after the call and the
    events of the call.  The mutex is held from the first line to the
    return. *)
Definition Basic (c : ecrCredentials) (now : Time)
  (client : GetAuthorizationTokenInput -> result GetAuthorizationTokenOutput)
  : (str * str) * ecrCredentials * list event :=
  if cached c now then ((username c, password c), c, [])
  else
    let input := tokenInput c in
    let '(creds, c', logged) := finishRefresh c now (client input) in
    (creds, c', GetAuthorizationToken input :: logged).

(** [parseECRURL]; the Go triple [(accountID, region, err)] is [Ok] of
    the pair or [Err]. *)
Definition parseECRURL (registryURL : str) : result (str * str) :=
  match url_Parse registryURL with
  | Err err => Err (lit "invalid registry URL: " ++ err)
  | Ok u =>
      let matches := FindStringSubmatch ecrURLPattern (Host u) in
      if negb (length matches =? 3) then
        Err (lit "URL does not match ECR registry pattern: " ++ Host u)
      else Ok (nth 1 matches [], nth 2 matches [])
  end.

Definition isECRURL (registryURL : str) : bool :=
  match url_Parse registryURL with
  | Err _ => false
  | Ok u => MatchString ecrURLPattern (Host u)
  end.

(** The four ways a refresh fails, on the answer of the client: the call
    errors, the answer has no record, the token of the first record does
    not decode, the decoded token has no colon to split on. *)
Inductive refresh_fails
  (resp : result GetAuthorizationTokenOutput) : Prop :=
| exchange_errors (e : error) :
    resp = Err e -> refresh_fails resp
| no_records :
    resp = Ok [] -> refresh_fails resp
| token_not_base64 (a : AuthorizationData) (rest : list AuthorizationData)
    (e : error) :
    resp = Ok (a :: rest) ->
    base64_DecodeString (StringValue (AuthorizationToken a)) = Err e ->
    refresh_fails resp
| token_without_colon (a : AuthorizationData) (rest : list AuthorizationData)
    (decoded : str) :
    resp = Ok (a :: rest) ->
    base64_DecodeString (StringValue (AuthorizationToken a)) = Ok decoded ->
    ~ In ":"%char decoded ->
    refresh_fails resp.

(** The refresh succeeds: the token of the first record decodes to
    [user:pass], [user] without a colon. *)
Definition refresh_yields (resp : result GetAuthorizationTokenOutput)
  (a : AuthorizationData) (user pass : str) : Prop :=
  (exists rest, resp = Ok (a :: rest)) /\
  base64_DecodeString (StringValue (AuthorizationToken a))
    = Ok (user ++ ":"%char :: pass) /\
  ~ In ":"%char user.

End Library.

(** The cached pair is not served: a string is empty, or a lifetime is
    configured and the clock has reached the stored expiry. *)
Definition refresh_attempted (c : ecrCredentials) (now : Time) : Prop :=
  username c = [] \/ password c = [] \/
  (lifetime c <> None /\ (expiry c <= now)%Z).

(** The expiry a successful refresh stores. *)
Definition new_expiry (c : ecrCredentials) (now : Time)
  (a : AuthorizationData) : Time :=
  match lifetime c with
  | Some d => if (0 <? d)%Z then (now + d)%Z
              else (TimeValue (ExpiresAt a) - Hour)%Z
  | None => (TimeValue (ExpiresAt a) - Hour)%Z
  end.

(** The struct a successful refresh leaves. *)
Definition refreshed (c : ecrCredentials) (now : Time)
  (a : AuthorizationData) (user pass : str) : ecrCredentials :=
  {| registryID := registryID c;
     lifetime := lifetime c;
     username := user;
     password := pass;
     expiry := new_expiry c now a |}.

(** Validity as the specification words it: both strings non-empty and
    the clock before the stored expiry. *)
Definition valid_at (c : ecrCredentials) (now : Time) : Prop :=
  username c <> [] /\ password c <> [] /\ (now < expiry c)%Z.

(** The host is [<digits>.dkr.ecr.<region>.amazonaws.com], the digits
    and the region non-empty, the region without a dot. *)
Definition ecr_host_shape (host accountID region : str) : Prop :=
  host = accountID ++ lit ".dkr.ecr." ++ region ++ lit ".amazonaws.com" /\
  accountID <> [] /\ region <> [] /\
  Forall (fun c => is_digit c = true) accountID /\ ~ In "."%char region.

(** *** [configureECRAuth]

    [configuration.ECRConfig], with the fields the function reads. *)
Record ECRConfig := {
  AccountID : str;
  Region : str;
  AccessKeyID : str;
  SecretAccessKey : str;
  SessionToken : str;
  Profile : str;
  Lifetime : option Duration
}.

(** What [config.Credentials] is set to. *)
Inductive awsCredentials :=
| StaticCredentials (id secret token : str)   (* NewStaticCredentials *)
| SharedCredentials (filename profile : str). (* NewSharedCredentials *)

(** [aws.Config], with the two fields the function sets; [None] is the
    nil [Credentials], which leaves the choice to the credential chain
    of the SDK. *)
Record awsConfig := {
  Config_Region : str;
  Config_Credentials : option awsCredentials
}.

Section Configure.

Variable url_Parse : str -> result URL.

(** [session.NewSession]; the client of the struct returned is
    [ecr.New] of the session. *)
Variable Session : Type.
Variable NewSession : awsConfig -> result Session.

(** [configureECRAuth]: the session the client is made from and the
    struct, or the error. *)
Definition configureECRAuth (cfg : ECRConfig) (remoteURL : str)
  : result (Session * ecrCredentials) :=
  let accountID := AccountID cfg in
  let region := Region cfg in
  let parsed :=
    if is_empty accountID || is_empty region then
      match parseECRURL url_Parse remoteURL with
      | Err err =>
          Err (lit "failed to parse ECR URL " ++ remoteURL ++ lit ": " ++ err)
      | Ok (parsedAccountID, parsedRegion) =>
          Ok (if is_empty accountID then parsedAccountID else accountID,
              if is_empty region then parsedRegion else region)
      end
    else Ok (accountID, region) in
  match parsed with
  | Err err => Err err
  | Ok (accountID, region) =>
      let credentials :=
        if negb (is_empty (AccessKeyID cfg))
           && negb (is_empty (SecretAccessKey cfg))
        then Some (StaticCredentials (AccessKeyID cfg) (SecretAccessKey cfg)
                     (SessionToken cfg))
        else if negb (is_empty (Profile cfg))
        then Some (SharedCredentials [] (Profile cfg))
        else None in
      let config :=
        {| Config_Region := region; Config_Credentials := credentials |} in
      match NewSession config with
      | Err err => Err (lit "failed to create AWS session: " ++ err)
      | Ok sess =>
          Ok (sess,
              {| registryID := accountID;
                 lifetime := Lifetime cfg;
                 username := [];
                 password := [];
                 expiry := zero |})
      end
  end.

End Configure.

(** The number of lines logged among the events. *)
Definition log_lines (tr : list event) : nat :=
  length (filter (fun e => match e with
                           | GetAuthorizationToken _ => false
                           | Log _ _ _ => true
                           end) tr).

(** The number of token-exchange calls among the events. *)
Definition exchange_calls (tr : list event) : nat :=
  length (filter (fun e => match e with
                           | GetAuthorizationToken _ => true
                           | Log _ _ _ => false
                           end) tr).

End Proxy.

(** ** Concurrent callers of [Basic]

    Each caller runs [Basic] on the one shared struct: it waits for the
    mutex, takes it, reads the clock and tests the cache, and either
    returns the cached pair or calls the client, handles the answer and
    returns; the deferred [Unlock] runs at the return.  The client call
    is a step of its own: the mutex is held across it. *)

Module Callers.
Import GoTime Proxy.

Inductive pc :=
| Waiting                       (* before c.m.Lock() *)
| Checking                      (* mutex taken, before line 39 *)
| Calling (now : Time)          (* cache found stale, before line 50 *)
| Handling (now : Time) (answer : result GetAuthorizationTokenOutput)
                                (* the client has answered, before line 51 *)
| Returned (creds : str * str). (* after the return, mutex released *)

Record state := {
  mutex : bool;                 (* c.m is locked *)
  cred : ecrCredentials;        (* the fields of c *)
  events : list event;          (* calls and logs so far *)
  threads : list pc
}.

Definition holds_mutex (t : pc) : bool :=
  match t with
  | Checking | Calling _ | Handling _ _ => true
  | Waiting | Returned _ => false
  end.

Definition has_returned (t : pc) : bool :=
  match t with Returned _ => true | _ => false end.

Fixpoint update (A : Type) (i : nat) (x : A) (l : list A) : list A :=
  match l, i with
  | [], _ => []
  | _ :: l', 0 => x :: l'
  | a :: l', S i' => a :: update i' x l'
  end.

Section System.
Variable base64_DecodeString : str -> result str.

(** The answer of the service to its [k]-th call, counted from 0. *)
Variable client :
  nat -> GetAuthorizationTokenInput -> result GetAuthorizationTokenOutput.

(** The next step of caller [i], [None] when it has none: it has
    returned, or it waits for a mutex that is taken.  [now] is what the
    clock shows, read by the step that tests the cache. *)
Definition exec (i : nat) (now : Time) (st : state) : option state :=
  match nth_error (threads st) i with
  | Some Waiting =>
      if mutex st then None
      else Some {| mutex := true; cred := cred st; events := events st;
                   threads := update i Checking (threads st) |}
  | Some Checking =>
      if cached (cred st) now then
        Some {| mutex := false; cred := cred st; events := events st;
                threads :=
                  update i (Returned (username (cred st), password (cred st)))
                    (threads st) |}
      else
        Some {| mutex := mutex st; cred := cred st; events := events st;
                threads := update i (Calling now) (threads st) |}
  | Some (Calling t) =>
      let input := tokenInput (cred st) in
      Some {| mutex := mutex st; cred := cred st;
              events := events st ++ [GetAuthorizationToken input];
              threads :=
                update i
                  (Handling t (client (exchange_calls (events st)) input))
                  (threads st) |}
  | Some (Handling t answer) =>
      let '(creds, c', logged) :=
        finishRefresh base64_DecodeString (cred st) t answer in
      Some {| mutex := false; cred := c'; events := events st ++ logged;
              threads := update i (Returned creds) (threads st) |}
  | Some (Returned _) => None
  | None => None
  end.

(** The instants the clock may show while the callers run. *)
Variable clock : Time -> Prop.

Definition step (st st' : state) : Prop :=
  exists i now, clock now /\ exec i now st = Some st'.

Inductive reachable (st0 : state) : state -> Prop :=
| reach_here : reachable st0 st0
| reach_step st st' : reachable st0 st -> step st st' -> reachable st0 st'.

(** Run the callers in the order given, each entry one step. *)
Fixpoint run (schedule : list (nat * Time)) (st : state) : option state :=
  match schedule with
  | [] => Some st
  | (i, now) :: rest =>
      match exec i now st with
      | Some st' => run rest st'
      | None => None
      end
  end.

End System.

(** Where a run of callers that start on the stale struct [c0] stands,
    when the first call of the client yields the pair [(user, pass)]:
    no call yet; the one call made and its answer not yet handled, the
    mutex taken; or the answer handled and the pair stored. *)
Section Phases.
Variable client :
  nat -> GetAuthorizationTokenInput -> result GetAuthorizationTokenOutput.
Variable clock : Time -> Prop.
Variable c0 : ecrCredentials.
Variable a : AuthorizationData.
Variables user pass : str.

Inductive phase (st : state) : Prop :=
| before_call :
    cred st = c0 ->
    exchange_calls (events st) = 0 ->
    Forall (fun t => t = Waiting \/ t = Checking \/
                     exists now, clock now /\ t = Calling now) (threads st) ->
    phase st
| during_call :
    cred st = c0 ->
    exchange_calls (events st) = 1 ->
    mutex st = true ->
    Forall (fun t => t = Waiting \/
                     exists now, clock now /\
                       t = Handling now (client 0 (tokenInput c0)))
      (threads st) ->
    phase st
| after_store (now : Time) :
    clock now ->
    cred st = refreshed c0 now a user pass ->
    exchange_calls (events st) = 1 ->
    Forall (fun t => t = Waiting \/ t = Checking \/ t = Returned (user, pass))
      (threads st) ->
    phase st.

(** The mutex is taken exactly when one caller is between [Lock] and
    its return, and then by that caller alone. *)
Definition mutex_exclusive (st : state) : Prop :=
  length (filter holds_mutex (threads st)) = if mutex st then 1 else 0.

End Phases.

(** The steps a caller has left at most: take the mutex, test the
    cache, call the client, handle the answer. *)
Definition steps_left (t : pc) : nat :=
  match t with
  | Waiting => 4
  | Checking => 3
  | Calling _ => 2
  | Handling _ _ => 1
  | Returned _ => 0
  end.

(** The steps all callers together have left at most. *)
Definition remaining (st : state) : nat :=
  list_sum (map steps_left (threads st)).

(** The caller has made its call of the client. *)
Definition past_call (t : pc) : bool :=
  match t with
  | Handling _ _ | Returned _ => true
  | Waiting | Checking | Calling _ => false
  end.

(** [n] callers about to call [Basic] on the struct [c]. *)
Definition init (n : nat) (c : ecrCredentials) : state :=
  {| mutex := false; cred := c; events := []; threads := repeat Waiting n |}.

Definition all_returned (st : state) : Prop :=
  forallb has_returned (threads st) = true.

End Callers.

(** ** Package [ecrmirror]: the storage middleware *)

Module Ecrmirror.
Import Regexp.

Definition bytes := list ascii.

(** What a call of [GetContent] does to the outside, in order. *)
Inductive event :=
| StoreGetContent (path : str)   (* d.StorageDriver.GetContent(ctx, path) *)
| Print (text : str)             (* fmt.Print, to standard output *)
| CmdRun (argv : list str)       (* (exec.Cmd).Run *)
| LogInfo (format : str) (args : list str).

(** The outside: the wrapped storage driver and the commands, each
    answering from what has happened so far. *)
Record Env := {
  driver_GetContent : list event -> str -> result bytes;
  cmd_Run : list event -> list str -> option error
}.

Record ecrFetcher := { remote : str; local : str }.

(** Computations that append to the history of events. *)
Definition M (A : Type) := list event -> A * list event.

Definition ret (A : Type) (a : A) : M A := fun h => (a, h).
Definition bind (A B : Type) (m : M A) (f : A -> M B) : M B :=
  fun h => let (a, h') := m h in f a h'.

Notation "x <- m ;; k" := (bind m (fun x => k))
  (at level 61, m at next level, right associativity).
Notation "m ;;; k" := (bind m (fun _ => k))
  (at level 61, right associativity).

Section World.
Variable env : Env.

Definition storeGetContent (path : str) : M (result bytes) :=
  fun h => (driver_GetContent env h path, h ++ [StoreGetContent path]).

Definition cmdRun (argv : list str) : M (option error) :=
  fun h => (cmd_Run env h argv, h ++ [CmdRun argv]).

Definition fmtPrint (text : str) : M unit :=
  fun h => (tt, h ++ [Print text]).

Definition logInfof (format : str) (args : list str) : M unit :=
  fun h => (tt, h ++ [LogInfo format args]).

(** [fmt.Sprintf("%s/%s:%s", host, repo, tag)]. *)
Definition image (host repo tag : str) : str :=
  host ++ lit "/" ++ repo ++ lit ":" ++ tag.

(** [pullAndImportFromECR]; [None] is the nil error.  The command [login]
    of the source is built and never run. *)
Definition pullAndImportFromECR (m : ecrFetcher) (repo tag : str)
  : M (option error) :=
  let fullImage := image (remote m) repo tag in
  fmtPrint (lit "Pulling image from ECR: " ++ fullImage) ;;;
  err <- cmdRun [lit "docker"; lit "pull"; fullImage] ;;
  match err with
  | Some e => ret (Some e)
  | None =>
      logInfof (lit "Pulled image from ECR: %s") [fullImage] ;;;
      let localTag := image (local m) repo tag in
      err <- cmdRun [lit "docker"; lit "tag"; fullImage; localTag] ;;
      match err with
      | Some e => ret (Some e)
      | None =>
          logInfof (lit "Tagged image: %s -> %s") [fullImage; localTag] ;;;
          err <- cmdRun [lit "docker"; lit "push"; localTag] ;;
          match err with
          | Some e => ret (Some e)
          | None =>
              logInfof (lit "Pushed image to local registry: %s") [localTag] ;;;
              ret None
          end
      end
  end.

(** [^/docker/registry/v2/repositories/(.+)/_manifests/tags/(.+)/current/link$] *)
Definition importKeyPattern : regex :=
  two_groups (lit "/docker/registry/v2/repositories/") AnyNotNL
    (lit "/_manifests/tags/") AnyNotNL (lit "/current/link").

(** The match of [GetContent] on the key: [FindStringSubmatch], the test
    [len(matches) != 3], then [matches[1]] and [matches[2]]. *)
Definition matchImportKey (path : str) : option (str * str) :=
  let matches := FindStringSubmatch importKeyPattern path in
  if negb (length matches =? 3) then None
  else Some (nth 1 matches [], nth 2 matches []).

Definition GetContent (d : ecrFetcher) (path : str) : M (result bytes) :=
  r <- storeGetContent path ;;
  match r with
  | Ok out => ret (Ok out)
  | Err _ =>
      match matchImportKey path with
      | None => ret (Err (lit "invalid path: " ++ path))
      | Some (repo, tag) =>
          err <- pullAndImportFromECR d repo tag ;;
          match err with
          | Some e => ret (Err (lit "failed to pull from ECR: " ++ e))
          | None => storeGetContent path
          end
      end
  end.

End World.

(** The key is
    [/docker/registry/v2/repositories/<repo>/_manifests/tags/<tag>/current/link]
    with [repo] and [tag] non-empty and free of newlines. *)
Definition miss_key_shape (path repo tag : str) : Prop :=
  path = lit "/docker/registry/v2/repositories/" ++ repo
           ++ lit "/_manifests/tags/" ++ tag ++ lit "/current/link" /\
  repo <> [] /\ tag <> [] /\ ~ In newline repo /\ ~ In newline tag.




(** The three commands of an import. *)
Definition pull_command (d : ecrFetcher) (repo tag : str) : list str :=
  [lit "docker"; lit "pull"; image (remote d) repo tag].
Definition tag_command (d : ecrFetcher) (repo tag : str) : list str :=
  [lit "docker"; lit "tag"; image (remote d) repo tag;
   image (local d) repo tag].
Definition push_command (d : ecrFetcher) (repo tag : str) : list str :=
  [lit "docker"; lit "push"; image (local d) repo tag].

(** The events of a miss followed by a whole import, in order. *)
Definition import_events (d : ecrFetcher) (path repo tag : str)
  : list event :=
  [StoreGetContent path;
   Print (lit "Pulling image from ECR: " ++ image (remote d) repo tag);
   CmdRun (pull_command d repo tag);
   LogInfo (lit "Pulled image from ECR: %s") [image (remote d) repo tag];
   CmdRun (tag_command d repo tag);
   LogInfo (lit "Tagged image: %s -> %s")
     [image (remote d) repo tag; image (local d) repo tag];
   CmdRun (push_command d repo tag);
   LogInfo (lit "Pushed image to local registry: %s")
     [image (local d) repo tag]].

(** The key ends in [/_manifests/tags/<tag>/current/link] with a tag free
    of [/]; what stands before, prefix and repository, is left free. *)
Definition shape_with_plain_tag (path : str) : Prop :=
  exists front tag,
    path = front ++ lit "/_manifests/tags/" ++ tag ++ lit "/current/link" /\
    ~ In "/"%char tag.

(** The calls of the wrapped driver, among the events. *)
Definition store_calls (tr : list event) : list str :=
  flat_map (fun e => match e with StoreGetContent p => [p] | _ => [] end) tr.

(** The commands run, among the events. *)
Definition commands (tr : list event) : list (list str) :=
  flat_map (fun e => match e with CmdRun a => [a] | _ => [] end) tr.

End Ecrmirror.

(** ** Stand-ins for the library functions, to run the model

    The theorems hold for every [url.Parse] and every base64 decoder;
    these two are used where the model is evaluated on concrete inputs. *)

Module Fixtures.
Import Proxy.

(** Value of a character of the standard base64 alphabet. *)
Definition b64_value (c : ascii) : option nat :=
  let n := nat_of_ascii c in
  if (65 <=? n) && (n <=? 90) then Some (n - 65)
  else if (97 <=? n) && (n <=? 122) then Some (n - 97 + 26)
  else if (48 <=? n) && (n <=? 57) then Some (n - 48 + 52)
  else if n =? 43 then Some 62
  else if n =? 47 then Some 63
  else None.

Definition b64_error : error := lit "illegal base64 data".

(** Padded base64 (RFC 4648, section 4), four characters at a time. *)
Fixpoint b64_quads (s : str) : result str :=
  match s with
  | [] => Ok []
  | a :: b :: c :: d :: rest =>
      match b64_value a, b64_value b with
      | Some va, Some vb =>
          let b0 := ascii_of_nat (va * 4 + vb / 16) in
          match b64_value c, b64_value d, rest with
          | Some vc, Some vd, _ =>
              match b64_quads rest with
              | Ok out =>
                  Ok (b0 :: ascii_of_nat ((vb mod 16) * 16 + vc / 4)
                         :: ascii_of_nat ((vc mod 4) * 64 + vd) :: out)
              | Err e => Err e
              end
          | Some vc, None, [] =>
              if Ascii.eqb d "=" then
                Ok [b0; ascii_of_nat ((vb mod 16) * 16 + vc / 4)]
              else Err b64_error
          | None, None, [] =>
              if Ascii.eqb c "=" && Ascii.eqb d "=" then Ok [b0]
              else Err b64_error
          | _, _, _ => Err b64_error
          end
      | _, _ => Err b64_error
      end
  | _ => Err b64_error
  end.

Definition base64_decode (s : str) : result str := b64_quads s.

(** A parser for URLs of the form [scheme://host] and
    [scheme://host/path]; any other text parses to a URL with an empty
    host. *)
Definition simple_url_parse (s : str) : result URL :=
  match Strings.Index s (lit "://") with
  | None => Ok {| Host := [] |}
  | Some i =>
      let rest := skipn (i + 3) s in
      match Strings.Index rest (lit "/") with
      | None => Ok {| Host := rest |}
      | Some j => Ok {| Host := firstn j rest |}
      end
  end.

(** Seconds since the epoch, as an instant. *)
Definition at_second (n : Z) : GoTime.Time := (n * 1000000000)%Z.

(** A cache as [configureECRAuth] builds it, with the given lifetime. *)
Definition fresh_cache (lt : option GoTime.Duration) : ecrCredentials :=
  {| registryID := lit "123456789012";
     lifetime := lt;
     username := [];
     password := [];
     expiry := GoTime.zero |}.

(** A cache holding a pair that went stale at second 500, under a
    lifetime of one hour. *)
Definition stale_cache : ecrCredentials :=
  {| registryID := lit "123456789012";
     lifetime := Some GoTime.Hour;
     username := lit "AWS";
     password := lit "old";
     expiry := at_second 500 |}.

(** A client answering with one record: the token, and an expiry twelve
    hours after second 1000. *)
Definition client_with (token : string)
  (_ : GetAuthorizationTokenInput) : result GetAuthorizationTokenOutput :=
  Ok [ {| AuthorizationToken := Some (lit token);
          ExpiresAt := Some (at_second (1000 + 12 * 3600)) |} ].

Definition client_failing
  (_ : GetAuthorizationTokenInput) : result GetAuthorizationTokenOutput :=
  Err (lit "RequestError: send request failed").

(** The clock during a run: between second 1000 and second 2000. *)
Definition run_clock (t : GoTime.Time) : Prop :=
  (at_second 1000 <= t <= at_second 2000)%Z.

(** Three callers: caller 0 takes the mutex first and runs to its
    return, then caller 2, then caller 1, each step at the instant
    given. *)
Definition three_callers : list (nat * GoTime.Time) :=
  [(0, at_second 1000); (0, at_second 1000); (0, at_second 1001);
   (0, at_second 1200);
   (2, at_second 1200); (2, at_second 1500);
   (1, at_second 1500); (1, at_second 2000)].

(** Two callers, one after the other, each taking the four steps of a
    refresh. *)
Definition two_callers : list (nat * GoTime.Time) :=
  [(0, at_second 1000); (0, at_second 1000); (0, at_second 1001);
   (0, at_second 1200);
   (1, at_second 1200); (1, at_second 1500); (1, at_second 1501);
   (1, at_second 2000)].

(** The state a schedule ends in (the start state when a step of the
    schedule cannot be taken). *)
Definition final_state (client : nat -> GetAuthorizationTokenInput ->
                                 result GetAuthorizationTokenOutput)
  (schedule : list (nat * GoTime.Time)) (st : Callers.state) : Callers.state :=
  match Callers.run base64_decode client schedule st with
  | Some st' => st'
  | None => st
  end.

(** The importer of a mirror of one registry. *)
Definition fetcher : Ecrmirror.ecrFetcher :=
  {| Ecrmirror.remote := lit "123456789012.dkr.ecr.us-west-2.amazonaws.com";
     Ecrmirror.local := lit "localhost:5000" |}.

(** A driver that has nothing, and commands that all fail. *)
Definition env_commands_fail : Ecrmirror.Env :=
  {| Ecrmirror.driver_GetContent := fun _ _ => Err (lit "Path not found");
     Ecrmirror.cmd_Run := fun _ _ => Some (lit "exit status 1") |}.

(** A driver that has the content once a command has run, and commands
    that all succeed. *)
Definition env_import_works : Ecrmirror.Env :=
  {| Ecrmirror.driver_GetContent :=
       fun h _ => match Ecrmirror.commands h with
                  | [] => Err (lit "Path not found")
                  | _ :: _ => Ok (lit "sha256:0123")
                  end;
     Ecrmirror.cmd_Run := fun _ _ => None |}.

(** Equality of strings, as a test. *)
Fixpoint str_eqb (s t : str) : bool :=
  match s, t with
  | [], [] => true
  | a :: s', b :: t' => Ascii.eqb a b && str_eqb s' t'
  | _, _ => false
  end.

(** A driver that has nothing, and commands that succeed except the
    [docker] subcommand named. *)
Definition env_fails_at (subcommand : string) : Ecrmirror.Env :=
  {| Ecrmirror.driver_GetContent := fun _ _ => Err (lit "Path not found");
     Ecrmirror.cmd_Run :=
       fun _ argv => if str_eqb (nth 1 argv []) (lit subcommand)
                     then Some (lit "exit status 1") else None |}.

(** A driver that has the content. *)
Definition env_has_content : Ecrmirror.Env :=
  {| Ecrmirror.driver_GetContent := fun _ _ => Ok (lit "sha256:0123");
     Ecrmirror.cmd_Run := fun _ _ => Some (lit "exit status 1") |}.


(** The configuration of the test of [configureECRAuth]. *)
Definition test_config : ECRConfig :=
  {| AccountID := lit "123456789012";
     Region := lit "us-west-2";
     AccessKeyID := lit "test-key";
     SecretAccessKey := lit "test-secret";
     SessionToken := [];
     Profile := [];
     Lifetime := Some GoTime.Hour |}.

(** A configuration that leaves everything to the URL and to the
    credential chain. *)
Definition empty_config : ECRConfig :=
  {| AccountID := []; Region := []; AccessKeyID := []; SecretAccessKey := [];
     SessionToken := []; Profile := []; Lifetime := None |}.

(** A session is the configuration it was made from. *)
Definition session_ok (config : awsConfig) : result awsConfig := Ok config.

Definition tag_link : str :=
  lit "/docker/registry/v2/repositories/packoff/cv/_manifests/tags/1.0.0/current/link".

End Fixtures.

(** * Properties *)

(** ** Strings and the matcher *)

Module StringsFacts.
Import Strings.

Lemma strip_prefix_app (p r : str) : strip_prefix p (p ++ r) = Some r.
Proof.
  induction p as [|a p IH]; simpl; [reflexivity|].
  rewrite Ascii.eqb_refl. exact IH.
Qed.

Lemma strip_prefix_Some (p s r : str) :
  strip_prefix p s = Some r <-> s = p ++ r.
Proof.
  split.
  - revert s. induction p as [|a p IH]; simpl; intros s H.
    + congruence.
    + destruct s as [|b s]; [discriminate|].
      destruct (Ascii.eqb_spec a b) as [->|]; [|discriminate].
      f_equal. auto.
  - intros ->. apply strip_prefix_app.
Qed.

Lemma strip_prefix_short (p s : str) :
  length s < length p -> strip_prefix p s = None.
Proof.
  intros H. destruct (strip_prefix p s) as [r|] eqn:E; [|reflexivity].
  apply strip_prefix_Some in E. subst s. rewrite length_app in H. lia.
Qed.

(** [Index] and [SplitN] for a separator of one character. *)

Lemma Index_char_absent (c : ascii) (s : str) :
  ~ In c s -> Index s [c] = None.
Proof.
  induction s as [|b s IH]; intros H; [reflexivity|].
  simpl in H. cbn [Index]. unfold HasPrefix. cbn [strip_prefix].
  destruct (Ascii.eqb_spec c b) as [->|_]; [tauto|].
  rewrite IH by tauto. reflexivity.
Qed.

Lemma Index_char_first (c : ascii) (u p : str) :
  ~ In c u -> Index (u ++ c :: p) [c] = Some (length u).
Proof.
  induction u as [|b u IH]; intros H.
  - simpl. unfold HasPrefix. cbn [strip_prefix]. rewrite Ascii.eqb_refl.
    reflexivity.
  - simpl in H. cbn [app Index]. unfold HasPrefix. cbn [strip_prefix].
    destruct (Ascii.eqb_spec c b) as [->|_]; [tauto|].
    rewrite IH by tauto. reflexivity.
Qed.

Lemma SplitN_2_absent (c : ascii) (s : str) :
  ~ In c s -> SplitN s [c] 2 = [s].
Proof.
  intros H. cbn [SplitN]. rewrite Index_char_absent by assumption. reflexivity.
Qed.

Lemma SplitN_2_first (c : ascii) (u p : str) :
  ~ In c u -> SplitN (u ++ c :: p) [c] 2 = [u; p].
Proof.
  intros H. cbn [SplitN]. rewrite Index_char_first by assumption.
  rewrite firstn_app, Nat.sub_diag, firstn_all. cbn [firstn length].
  rewrite app_nil_r. f_equal.
  rewrite skipn_app, skipn_all2 by lia.
  replace (length u + 1 - length u) with 1 by lia. reflexivity.
Qed.

(** A string with [c] in it splits at its first [c]. *)
Lemma first_occurrence (c : ascii) (s : str) :
  In c s -> exists u p, s = u ++ c :: p /\ ~ In c u.
Proof.
  induction s as [|b s IH]; intros H; [contradiction|].
  destruct (Ascii.eqb_spec c b) as [->|Hne].
  - exists [], s. split; [reflexivity|]. intros [].
  - destruct H as [H|H]; [congruence|].
    destruct (IH H) as (u & p & -> & Hu).
    exists (b :: u), p. split; [reflexivity|].
    intros [E|E]; [congruence|contradiction].
Qed.

(** Splitting in two gives two parts exactly when the separator
    occurs. *)
Lemma SplitN_2_length (c : ascii) (s : str) :
  length (SplitN s [c] 2) = 2 <-> In c s.
Proof.
  split.
  - intros H. destruct (in_dec ascii_dec c s) as [Hin|Hout]; [exact Hin|].
    rewrite SplitN_2_absent in H by assumption. discriminate.
  - intros H. destruct (first_occurrence c s H) as (u & p & -> & Hu).
    rewrite SplitN_2_first by assumption. reflexivity.
Qed.

End StringsFacts.

Module RegexpFacts.
Import Strings Regexp StringsFacts.

Section Greedy.
Variable R : Type.
Variable p : ascii -> bool.

Lemma plus_greedy_None (s : str) (k : str -> option R) :
  plus_greedy p s k = None <->
  (forall a r, s = a ++ r -> a <> [] -> forallb p a = true -> k r = None).
Proof.
  induction s as [|c s IH]; simpl.
  - split; [|reflexivity].
    intros _ a r E Ha. destruct a; [congruence|discriminate].
  - destruct (p c) eqn:Hc.
    + split.
      * intros H a r E Ha Hp.
        destruct (plus_greedy p s k) eqn:Hs; [discriminate|].
        destruct a as [|c' a]; [congruence|].
        injection E as <- ->.
        destruct a as [|c'' a]; [exact H|].
        simpl in Hp. rewrite Hc in Hp.
        apply (proj1 IH eq_refl (c'' :: a) r); [reflexivity|discriminate|exact Hp].
      * intros H.
        assert (Hs : plus_greedy p s k = None).
        { apply IH. intros a r -> Ha Hp.
          apply (H (c :: a) r); [reflexivity|discriminate|].
          simpl. rewrite Hc. exact Hp. }
        rewrite Hs. apply (H [c] s); [reflexivity|discriminate|].
        simpl. rewrite Hc. reflexivity.
    + split; [|reflexivity].
      intros _ a r E Ha Hp.
      destruct a as [|c' a]; [congruence|].
      injection E as <- ->. simpl in Hp. rewrite Hc in Hp. discriminate.
Qed.

Lemma plus_greedy_Some (s : str) (k : str -> option R) (x : R) :
  plus_greedy p s k = Some x <->
  (exists a r, s = a ++ r /\ a <> [] /\ forallb p a = true /\ k r = Some x /\
     forall a' r', s = a' ++ r' -> forallb p a' = true ->
                   length a < length a' -> k r' = None).
Proof.
  revert x. induction s as [|c s IH]; intros x; simpl.
  - split; [discriminate|].
    intros (a & r & E & Ha & _). destruct a; [congruence|discriminate].
  - destruct (p c) eqn:Hc.
    + split.
      * destruct (plus_greedy p s k) as [y|] eqn:Hs.
        -- intros [= ->].
           destruct (proj1 (IH x) eq_refl) as (a & r & -> & Ha & Hp & Hk & Hmax).
           exists (c :: a), r. repeat split; try assumption.
           ++ discriminate.
           ++ simpl. rewrite Hc. exact Hp.
           ++ intros a' r' E Hp' Hlen.
              destruct a' as [|c' a']; [simpl in Hlen; lia|].
              injection E as <- E. simpl in Hp'. rewrite Hc in Hp'.
              apply (Hmax a' r' E Hp'). simpl in Hlen. lia.
        -- intros Hk. exists [c], s. repeat split; try assumption.
           ++ discriminate.
           ++ simpl. rewrite Hc. reflexivity.
           ++ intros a' r' E Hp' Hlen.
              destruct a' as [|c' a']; [simpl in Hlen; lia|].
              injection E as <- E. simpl in Hp'. rewrite Hc in Hp'.
              apply (proj1 (plus_greedy_None s k) Hs a' r' E); [|exact Hp'].
              destruct a'; [simpl in Hlen; lia|discriminate].
      * intros (a & r & E & Ha & Hp & Hk & Hmax).
        destruct a as [|c' a]; [congruence|].
        injection E as <- ->. simpl in Hp. rewrite Hc in Hp.
        destruct a as [|c'' a].
        -- assert (Hs : plus_greedy p r k = None).
           { apply plus_greedy_None. intros a' r' -> Ha' Hp'.
             apply (Hmax (c :: a') r'); [reflexivity| |].
             - simpl. rewrite Hc. exact Hp'.
             - destruct a'; [congruence|simpl; lia]. }
           simpl. rewrite Hs. exact Hk.
        -- assert (Hs : plus_greedy p ((c'' :: a) ++ r) k = Some x).
           { apply IH. exists (c'' :: a), r. repeat split; try assumption.
             - discriminate.
             - intros a' r' E Hp' Hlen.
               apply (Hmax (c :: a') r').
               + simpl. f_equal. exact E.
               + simpl. rewrite Hc. exact Hp'.
               + simpl in *. lia. }
           rewrite Hs. reflexivity.
    + split; [discriminate|].
      intros (a & r & E & Ha & Hp & _).
      destruct a as [|c' a]; [congruence|].
      injection E as <- ->. simpl in Hp. rewrite Hc in Hp. discriminate.
Qed.

End Greedy.

(** A greedy run followed by a literal that must end the input: the run
    is everything before the literal. *)
Lemma plus_then_suffix (R : Type) (p : ascii -> bool) (suf s : str)
  (f : str -> str -> R) (m : R) :
  plus_greedy p s
    (fun r => match strip_prefix suf r with
              | Some e => match e with
                          | [] => Some (f r e)
                          | _ :: _ => None
                          end
              | None => None
              end) = Some m <->
  (exists g, s = g ++ suf /\ g <> [] /\ forallb p g = true /\ m = f suf []).
Proof.
  rewrite plus_greedy_Some. split.
  - intros (a & r & -> & Ha & Hp & Hk & _).
    destruct (strip_prefix suf r) as [[|? ?]|] eqn:E; try discriminate.
    apply strip_prefix_Some in E. rewrite app_nil_r in E. subst r.
    injection Hk as <-. exists a. auto.
  - intros (g & -> & Hg & Hp & ->).
    exists g, suf. repeat split; try assumption.
    + pose proof (strip_prefix_app suf []) as E. rewrite app_nil_r in E.
      rewrite E. reflexivity.
    + intros a' r' E Hp' Hlen.
      rewrite strip_prefix_short; [reflexivity|].
      apply (f_equal (@length ascii)) in E. rewrite !length_app in E. lia.
Qed.

Section TwoGroups.
Variables (pre : str) (c1 : class) (mid : str) (c2 : class) (suf : str).

Lemma match_at_anchored (inp : str) (r : regex) (s : str) :
  length s <> length inp -> match_at inp (Cat BeginText r) s = None.
Proof.
  intros H. unfold match_at. cbn [run].
  destruct (Nat.eqb_spec (length s) (length inp)); [contradiction|reflexivity].
Qed.

Lemma search_anchored (inp : str) (r : regex) (s : str) :
  length s < length inp -> search inp (Cat BeginText r) s = None.
Proof.
  induction s as [|c s IH]; intros H; cbn [search].
  - rewrite match_at_anchored; [reflexivity|lia].
  - rewrite match_at_anchored; [|lia]. apply IH. simpl in H. lia.
Qed.

Lemma search_two_groups (s : str) :
  search s (two_groups pre c1 mid c2 suf) s =
  match_at s (two_groups pre c1 mid c2 suf) s.
Proof.
  destruct s as [|c s]; cbn [search].
  - destruct (match_at [] _ []); reflexivity.
  - destruct (match_at (c :: s) _ (c :: s)); [reflexivity|].
    apply search_anchored. simpl. lia.
Qed.

(** The match found on [s]: the split with the longest first group. *)
Lemma match_at_two_groups (s : str) (m : list str) :
  match_at s (two_groups pre c1 mid c2 suf) s = Some m <->
  (exists g1 g2, m = [s; g1; g2] /\ splits pre c1 mid c2 suf s g1 g2 /\
     forall g1' g2', splits pre c1 mid c2 suf s g1' g2' ->
                     length g1' <= length g1).
Proof.
  unfold match_at, two_groups. cbn [run app].
  rewrite Nat.eqb_refl.
  destruct (strip_prefix pre s) as [s1|] eqn:Epre.
  2:{ split; [discriminate|].
      intros (g1 & g2 & _ & (E & _) & _).
      rewrite E, strip_prefix_app in Epre. discriminate. }
  apply strip_prefix_Some in Epre. subst s.
  rewrite plus_greedy_Some. split.
  - intros (g1 & r1 & -> & Hg1 & Hp1 & Hk & Hmax).
    destruct (strip_prefix mid r1) as [s2|] eqn:Emid; [|discriminate].
    apply strip_prefix_Some in Emid. subst r1.
    apply (plus_then_suffix (in_class c2) suf s2
             (fun r2 e => [firstn (length (pre ++ g1 ++ mid ++ s2) - length e)
                           (pre ++ g1 ++ mid ++ s2);
                         firstn (length (g1 ++ mid ++ s2) - length (mid ++ s2))
                           (g1 ++ mid ++ s2);
                         firstn (length s2 - length r2) s2])) in Hk.
    destruct Hk as (g2 & -> & Hg2 & Hp2 & ->).
    exists g1, g2. split; [|split].
    + cbn [length]. rewrite Nat.sub_0_r, firstn_all, !length_app.
      replace (length g1 + (length mid + (length g2 + length suf))
               - (length mid + (length g2 + length suf))) with (length g1) by lia.
      replace (length g2 + length suf - length suf) with (length g2) by lia.
      rewrite !firstn_app, !Nat.sub_diag, !firstn_all. simpl.
      rewrite !app_nil_r. reflexivity.
    + repeat split; assumption.
    + intros g1' g2' (E & Hg1' & Hg2' & Hp1' & Hp2').
      destruct (Nat.le_gt_cases (length g1') (length g1)) as [|Hlt]; [assumption|].
      apply app_inv_head in E.
      specialize (Hmax g1' (mid ++ g2' ++ suf) E Hp1' Hlt).
      rewrite strip_prefix_app in Hmax.
      apply (proj1 (plus_greedy_None _ _ _) Hmax g2' suf eq_refl Hg2') in Hp2'.
      pose proof (strip_prefix_app suf []) as E'. rewrite app_nil_r in E'.
      rewrite E' in Hp2'. discriminate.
  - intros (g1 & g2 & -> & (E & Hg1 & Hg2 & Hp1 & Hp2) & Hmax).
    apply app_inv_head in E. subst s1.
    exists g1, (mid ++ g2 ++ suf). repeat split; try assumption.
    + rewrite strip_prefix_app.
      apply (plus_then_suffix (in_class c2) suf (g2 ++ suf)
               (fun r2 e => [firstn (length (pre ++ g1 ++ mid ++ g2 ++ suf) - length e)
                             (pre ++ g1 ++ mid ++ g2 ++ suf);
                           firstn (length (g1 ++ mid ++ g2 ++ suf)
                                   - length (mid ++ g2 ++ suf))
                             (g1 ++ mid ++ g2 ++ suf);
                           firstn (length (g2 ++ suf) - length r2) (g2 ++ suf)])).
      exists g2. repeat split; try assumption.
      cbn [length]. rewrite Nat.sub_0_r, firstn_all, !length_app.
      replace (length g1 + (length mid + (length g2 + length suf))
               - (length mid + (length g2 + length suf))) with (length g1) by lia.
      replace (length g2 + length suf - length suf) with (length g2) by lia.
      rewrite !firstn_app, !Nat.sub_diag, !firstn_all. simpl.
      rewrite !app_nil_r. reflexivity.
    + intros a' r' E Hp' Hlen.
      destruct (strip_prefix mid r') as [s2|] eqn:Emid; [|reflexivity].
      apply strip_prefix_Some in Emid. subst r'.
      match goal with |- ?lhs = None => destruct lhs as [x|] eqn:Hx end;
        [|reflexivity].
      apply (plus_then_suffix (in_class c2) suf s2
               (fun r2 e => [firstn (length (pre ++ g1 ++ mid ++ g2 ++ suf) - length e)
                             (pre ++ g1 ++ mid ++ g2 ++ suf);
                           firstn (length (g1 ++ mid ++ g2 ++ suf)
                                   - length (mid ++ s2))
                             (g1 ++ mid ++ g2 ++ suf);
                           firstn (length s2 - length r2) s2])) in Hx.
      destruct Hx as (g2' & -> & Hg2' & Hp2' & _).
      assert (Hs : splits pre c1 mid c2 suf (pre ++ g1 ++ mid ++ g2 ++ suf) a' g2').
      { repeat split; try assumption.
        - f_equal. exact E.
        - destruct a'; [simpl in Hlen; lia|discriminate]. }
      apply Hmax in Hs. lia.
Qed.

Lemma match_at_two_groups_None (s : str) :
  match_at s (two_groups pre c1 mid c2 suf) s = None <->
  ~ exists g1 g2, splits pre c1 mid c2 suf s g1 g2.
Proof.
  split.
  - intros H (g1 & g2 & E & Hg1 & Hg2 & Hp1 & Hp2).
    unfold match_at, two_groups in H. cbn [run app] in H.
    rewrite Nat.eqb_refl, E, strip_prefix_app in H.
    apply (proj1 (plus_greedy_None _ _ _) H g1 _ eq_refl Hg1) in Hp1.
    rewrite strip_prefix_app in Hp1.
    apply (proj1 (plus_greedy_None _ _ _) Hp1 g2 suf eq_refl Hg2) in Hp2.
    pose proof (strip_prefix_app suf []) as E'. rewrite app_nil_r in E'.
    rewrite E' in Hp2. discriminate.
  - intros H.
    destruct (match_at s _ s) as [m|] eqn:E; [|reflexivity].
    apply match_at_two_groups in E.
    destruct E as (g1 & g2 & _ & Hs & _). exfalso. apply H. eauto.
Qed.

Lemma find_two_groups (s g1 g2 : str) :
  FindStringSubmatch (two_groups pre c1 mid c2 suf) s = [s; g1; g2] <->
  (splits pre c1 mid c2 suf s g1 g2 /\
   forall g1' g2', splits pre c1 mid c2 suf s g1' g2' ->
                   length g1' <= length g1).
Proof.
  unfold FindStringSubmatch. rewrite search_two_groups. split.
  - destruct (match_at s _ s) as [m|] eqn:E; [|discriminate].
    intros ->. apply match_at_two_groups in E.
    destruct E as (h1 & h2 & [= <- <-] & H). exact H.
  - intros [Hs Hmax].
    assert (E : match_at s (two_groups pre c1 mid c2 suf) s = Some [s; g1; g2]).
    { apply match_at_two_groups. exists g1, g2. auto. }
    rewrite E. reflexivity.
Qed.

Lemma find_two_groups_nil (s : str) :
  FindStringSubmatch (two_groups pre c1 mid c2 suf) s = [] <->
  ~ exists g1 g2, splits pre c1 mid c2 suf s g1 g2.
Proof.
  unfold FindStringSubmatch. rewrite search_two_groups.
  rewrite <- match_at_two_groups_None.
  destruct (match_at s _ s) as [m|] eqn:E; [|tauto].
  apply match_at_two_groups in E. destruct E as (g1 & g2 & -> & _).
  split; discriminate.
Qed.

(** The slice has the whole match and the two groups, or is nil. *)
Lemma find_two_groups_cases (s : str) :
  FindStringSubmatch (two_groups pre c1 mid c2 suf) s = [] \/
  exists g1 g2, FindStringSubmatch (two_groups pre c1 mid c2 suf) s = [s; g1; g2].
Proof.
  unfold FindStringSubmatch. rewrite search_two_groups.
  destruct (match_at s _ s) as [m|] eqn:E; [right|left; reflexivity].
  apply match_at_two_groups in E. destruct E as (g1 & g2 & -> & _). eauto.
Qed.

Lemma MatchString_find (s : str) :
  MatchString (two_groups pre c1 mid c2 suf) s = true <->
  length (FindStringSubmatch (two_groups pre c1 mid c2 suf) s) = 3.
Proof.
  unfold MatchString, FindStringSubmatch. rewrite search_two_groups.
  destruct (match_at s _ s) as [m|] eqn:E.
  - apply match_at_two_groups in E. destruct E as (g1 & g2 & -> & _).
    simpl. tauto.
  - simpl. split; discriminate.
Qed.

End TwoGroups.

Lemma forallb_not_char (x : ascii) (l : str) :
  forallb (fun c => negb (Ascii.eqb c x)) l = true <-> ~ In x l.
Proof.
  induction l as [|c l IH]; simpl.
  - tauto.
  - rewrite andb_true_iff, IH, negb_true_iff.
    destruct (Ascii.eqb_spec c x); intuition congruence.
Qed.

End RegexpFacts.

(** ** The miss key *)

Module EcrmirrorFacts.
Import Strings Regexp Ecrmirror StringsFacts RegexpFacts.

Lemma miss_key_splits (path repo tag : str) :
  miss_key_shape path repo tag <->
  splits (lit "/docker/registry/v2/repositories/") AnyNotNL
    (lit "/_manifests/tags/") AnyNotNL (lit "/current/link") path repo tag.
Proof.
  unfold miss_key_shape, splits, in_class.
  rewrite !forallb_not_char. tauto.
Qed.

Lemma matchImportKey_Some (path repo tag : str) :
  matchImportKey path = Some (repo, tag) <->
  FindStringSubmatch importKeyPattern path = [path; repo; tag].
Proof.
  unfold matchImportKey, importKeyPattern.
  destruct (find_two_groups_cases (lit "/docker/registry/v2/repositories/")
              AnyNotNL (lit "/_manifests/tags/") AnyNotNL
              (lit "/current/link") path) as [E|(g1 & g2 & E)];
    rewrite E; simpl; split; congruence.
Qed.

Lemma matchImportKey_None (path : str) :
  matchImportKey path = None <->
  FindStringSubmatch importKeyPattern path = [].
Proof.
  unfold matchImportKey, importKeyPattern.
  destruct (find_two_groups_cases (lit "/docker/registry/v2/repositories/")
              AnyNotNL (lit "/_manifests/tags/") AnyNotNL
              (lit "/current/link") path) as [E|(g1 & g2 & E)];
    rewrite E; simpl; split; congruence.
Qed.

(** The match found is the reading of the key with the longest
    repository. *)
Lemma matchImportKey_longest (path repo tag : str) :
  matchImportKey path = Some (repo, tag) <->
  (miss_key_shape path repo tag /\
   forall repo' tag', miss_key_shape path repo' tag' ->
                      length repo' <= length repo).
Proof.
  rewrite matchImportKey_Some.
  unfold importKeyPattern. rewrite find_two_groups.
  rewrite <- miss_key_splits. split; intros [H1 H2]; split; try assumption.
  - intros r t Hs. apply miss_key_splits in Hs. eauto.
  - intros r t Hs. apply miss_key_splits in Hs. eauto.
Qed.

Lemma matchImportKey_none (path : str) :
  matchImportKey path = None <->
  ~ exists repo tag, miss_key_shape path repo tag.
Proof.
  rewrite matchImportKey_None. unfold importKeyPattern.
  rewrite find_two_groups_nil. split; intros H (r & t & Hs); apply H.
  - exists r, t. apply miss_key_splits. exact Hs.
  - exists r, t. apply miss_key_splits. exact Hs.
Qed.

(** C2, as the code has it: the match yields [(repo, tag)] exactly when
    the key is
    [/docker/registry/v2/repositories/<repo>/_manifests/tags/<tag>/current/link]
    with [repo] and [tag] non-empty and free of newlines (either may
    contain [/]) and no other such reading of the key has a longer
    [repo]; it yields none exactly when the key has no such reading. *)
Theorem matchImportKey_spec (path : str) :
  (forall repo tag,
     matchImportKey path = Some (repo, tag) <->
     (miss_key_shape path repo tag /\
      forall repo' tag', miss_key_shape path repo' tag' ->
                         length repo' <= length repo)) /\
  (matchImportKey path = None <->
   ~ exists repo tag, miss_key_shape path repo tag).
Proof.
  split.
  - intros repo tag. apply matchImportKey_longest.
  - apply matchImportKey_none.
Qed.

(** The key of the comment in [GetContent]. *)
Example matchImportKey_packoff :
  matchImportKey Fixtures.tag_link = Some (lit "packoff/cv", lit "1.0.0").
Proof. vm_compute. reflexivity. Qed.

(** The match is anchored at both ends, yet a key extended by a second
    [/current/link] is matched, with a longer tag. *)
Example matchImportKey_variants :
  matchImportKey (lit "x" ++ Fixtures.tag_link) = None /\
  matchImportKey (Fixtures.tag_link ++ lit "/") = None /\
  matchImportKey
    (lit "/docker/registry/v2/repositories/packoff/cv/_manifests/tags/1.0.0/current")
  = None /\
  matchImportKey (Fixtures.tag_link ++ lit "/current/link")
  = Some (lit "packoff/cv", lit "1.0.0/current/link").
Proof. repeat split; vm_compute; reflexivity. Qed.

(** C2, as stated, fails: a key whose tag segment contains [/] is
    matched.  The key below has no reading with a tag free of [/], and
    the match yields the tag [x/y]. *)
Lemma matchImportKey_tag_with_slash :
  let key :=
    lit "/docker/registry/v2/repositories/a/_manifests/tags/x/y/current/link" in
  matchImportKey key = Some (lit "a", lit "x/y") /\
  In "/"%char (lit "x/y") /\
  ~ exists repo tag, miss_key_shape key repo tag /\ ~ In "/"%char tag.
Proof.
  intros key.
  assert (E : matchImportKey key = Some (lit "a", lit "x/y"))
    by (vm_compute; reflexivity).
  split; [exact E|]. split; [simpl; tauto|].
  intros (repo & tag & Hs & Hno).
  apply matchImportKey_longest in E. destruct E as [_ Hmax].
  pose proof (Hmax _ _ Hs) as Hlen.
  destruct Hs as (Ek & Hr & _).
  destruct repo as [|c [|c' repo]]; [congruence| |simpl in Hlen; lia].
  change key with
    (lit "/docker/registry/v2/repositories/" ++
     [ "a"%char ] ++ lit "/_manifests/tags/" ++ lit "x/y" ++ lit "/current/link")
    in Ek.
  apply app_inv_head in Ek. injection Ek as _ Ek.
  apply (app_inv_tail (lit "/current/link") (lit "x/y") tag) in Ek.
  subst tag. apply Hno. simpl. tauto.
Qed.

End EcrmirrorFacts.

(** ** The registry host *)

Module ProxyURLFacts.
Import Strings Regexp Proxy StringsFacts RegexpFacts.

Lemma ecr_host_splits (host a r : str) :
  ecr_host_shape host a r <->
  splits [] Digit (lit ".dkr.ecr.") (NotChar ".") (lit ".amazonaws.com")
    host a r.
Proof.
  unfold ecr_host_shape, splits, in_class.
  rewrite forallb_not_char, forallb_forall, Forall_forall. simpl. tauto.
Qed.

(** A run of digits followed by a dot can be read in one way only. *)
Lemma digits_then_dot (a a' x y : str) :
  Forall (fun c => is_digit c = true) a ->
  Forall (fun c => is_digit c = true) a' ->
  a ++ "."%char :: x = a' ++ "."%char :: y -> a = a'.
Proof.
  intros Ha. revert a'.
  induction Ha as [|c a Hc Ha IH]; intros a' Ha' E.
  - destruct Ha' as [|c' a' Hc' Ha']; [reflexivity|].
    simpl in E. injection E as <- _. discriminate.
  - destruct Ha' as [|c' a' Hc' Ha'].
    + simpl in E. injection E as -> _. discriminate.
    + simpl in E. injection E as <- E. f_equal. eauto.
Qed.

Lemma ecr_host_unique (host a r a' r' : str) :
  ecr_host_shape host a r -> ecr_host_shape host a' r' -> a = a' /\ r = r'.
Proof.
  intros (E & _ & _ & Ha & _) (E' & _ & _ & Ha' & _).
  rewrite E in E'. pose proof (digits_then_dot _ _ Ha Ha' E') as <-.
  split; [reflexivity|].
  apply app_inv_head in E'. apply app_inv_head in E'.
  apply app_inv_tail in E'. exact E'.
Qed.

Lemma find_ecr (host a r : str) :
  FindStringSubmatch ecrURLPattern host = [host; a; r] <->
  ecr_host_shape host a r.
Proof.
  unfold ecrURLPattern. rewrite find_two_groups. split.
  - intros [H _]. apply ecr_host_splits. exact H.
  - intros H. split; [apply ecr_host_splits; exact H|].
    intros a' r' H'. apply ecr_host_splits in H'.
    destruct (ecr_host_unique H H') as [<- _]. lia.
Qed.

Section Library.
Variable url_Parse : str -> result URL.

Lemma parseECRURL_Ok (url a r : str) :
  parseECRURL url_Parse url = Ok (a, r) <->
  exists u, url_Parse url = Ok u /\ ecr_host_shape (Host u) a r.
Proof.
  unfold parseECRURL. destruct (url_Parse url) as [u|e].
  - destruct (find_two_groups_cases [] Digit (lit ".dkr.ecr.") (NotChar ".")
                (lit ".amazonaws.com") (Host u)) as [E|(g1 & g2 & E)];
      fold ecrURLPattern in E; rewrite E; simpl.
    + split; [discriminate|].
      intros (u' & [= <-] & H). apply find_ecr in H. congruence.
    + apply find_ecr in E. split.
      * intros [= <- <-]. eauto.
      * intros (u' & [= <-] & H).
        destruct (ecr_host_unique E H) as [-> ->]. reflexivity.
  - split; [discriminate|]. intros (u & H & _). discriminate.
Qed.

Lemma isECRURL_true (url : str) :
  isECRURL url_Parse url = true <->
  exists u a r, url_Parse url = Ok u /\ ecr_host_shape (Host u) a r.
Proof.
  unfold isECRURL. destruct (url_Parse url) as [u|e].
  - unfold ecrURLPattern. rewrite MatchString_find.
    destruct (find_two_groups_cases [] Digit (lit ".dkr.ecr.") (NotChar ".")
                (lit ".amazonaws.com") (Host u)) as [E|(g1 & g2 & E)];
      rewrite E; simpl.
    + split; [discriminate|].
      intros (u' & a & r & [= <-] & H). apply find_ecr in H.
      unfold ecrURLPattern in H. congruence.
    + split; [intros _|reflexivity].
      exists u, g1, g2. split; [reflexivity|]. apply find_ecr. exact E.
  - split; [discriminate|]. intros (u & a & r & H & _). discriminate.
Qed.

(** C8: [isECRURL] is true exactly when the URL parses and its host is
    [<digits>.dkr.ecr.<region>.amazonaws.com], and false (not an error)
    otherwise, in particular when the URL does not parse; [parseECRURL]
    returns the pair [(accountID, region)] read from such a host, and an
    error in every other case; [isECRURL] is true exactly when
    [parseECRURL] succeeds. *)
Theorem isECRURL_parseECRURL_spec (url : str) :
  (isECRURL url_Parse url = true <->
   exists u a r, url_Parse url = Ok u /\ ecr_host_shape (Host u) a r) /\
  (forall a r,
     parseECRURL url_Parse url = Ok (a, r) <->
     exists u, url_Parse url = Ok u /\ ecr_host_shape (Host u) a r) /\
  ((exists e, parseECRURL url_Parse url = Err e) <->
   ~ exists u a r, url_Parse url = Ok u /\ ecr_host_shape (Host u) a r) /\
  (isECRURL url_Parse url = true <->
   exists a r, parseECRURL url_Parse url = Ok (a, r)) /\
  (forall e, url_Parse url = Err e ->
     isECRURL url_Parse url = false /\
     parseECRURL url_Parse url = Err (lit "invalid registry URL: " ++ e)).
Proof.
  split; [apply isECRURL_true|].
  split; [intros a r; apply parseECRURL_Ok|].
  split; [|split].
  - split.
    + intros [e He] (u & a & r & H).
      assert (E : parseECRURL url_Parse url = Ok (a, r))
        by (apply parseECRURL_Ok; eauto).
      congruence.
    + intros H. destruct (parseECRURL url_Parse url) as [[a r]|e] eqn:E; [|eauto].
      exfalso. apply H. apply parseECRURL_Ok in E.
      destruct E as (u & E1 & E2). eauto.
  - rewrite isECRURL_true. split.
    + intros (u & a & r & H). exists a, r. apply parseECRURL_Ok. eauto.
    + intros (a & r & H). apply parseECRURL_Ok in H.
      destruct H as (u & H). eauto.
  - intros e He. unfold isECRURL, parseECRURL. rewrite He. auto.
Qed.

End Library.

(** The cases of the tests of the package, with the stand-in parser. *)
Example parseECRURL_tests :
  parseECRURL Fixtures.simple_url_parse
    (lit "https://123456789012.dkr.ecr.us-west-2.amazonaws.com")
  = Ok (lit "123456789012", lit "us-west-2") /\
  parseECRURL Fixtures.simple_url_parse
    (lit "https://123456789012.dkr.ecr.eu-central-1.amazonaws.com/my-repo")
  = Ok (lit "123456789012", lit "eu-central-1") /\
  parseECRURL Fixtures.simple_url_parse (lit "https://registry-1.docker.io")
  = Err (lit "URL does not match ECR registry pattern: registry-1.docker.io") /\
  parseECRURL Fixtures.simple_url_parse (lit "not-a-url")
  = Err (lit "URL does not match ECR registry pattern: ").
Proof. repeat split; vm_compute; reflexivity. Qed.

Example isECRURL_tests :
  isECRURL Fixtures.simple_url_parse
    (lit "https://123456789012.dkr.ecr.us-west-2.amazonaws.com") = true /\
  isECRURL Fixtures.simple_url_parse (lit "https://registry-1.docker.io")
  = false /\
  isECRURL Fixtures.simple_url_parse (lit "https://my-registry.com") = false.
Proof. repeat split; vm_compute; reflexivity. Qed.

End ProxyURLFacts.

(** ** The credential cache *)

Module ProxyCacheFacts.
Import Strings Regexp GoTime Proxy StringsFacts.

Lemma is_empty_false (s : str) : is_empty s = false <-> s <> [].
Proof. destruct s; simpl; split; congruence. Qed.

(** The test of [Basic] on the cache, read as a proposition. *)
Lemma served_test (c : ecrCredentials) (now : Time) :
  cached c now = true <->
  (username c <> [] /\ password c <> [] /\
   (lifetime c = None \/ (now < expiry c)%Z)).
Proof.
  unfold cached.
  rewrite !andb_true_iff, orb_true_iff, !negb_true_iff, !is_empty_false.
  unfold Before. rewrite Z.ltb_lt.
  destruct (lifetime c); simpl; intuition congruence.
Qed.

Lemma attempted_test (c : ecrCredentials) (now : Time) :
  cached c now = false <->
  refresh_attempted c now.
Proof.
  rewrite <- not_true_iff_false, served_test. unfold refresh_attempted.
  split.
  - intros H.
    destruct (username c) as [|x u]; [left; reflexivity|].
    destruct (password c) as [|y p]; [right; left; reflexivity|].
    right; right. split.
    + intros E. apply H. repeat split; try discriminate. left. exact E.
    + destruct (Z.le_gt_cases (expiry c) now); [assumption|].
      exfalso. apply H. repeat split; try discriminate. right. lia.
  - intros [E|[E|[E1 E2]]] (H1 & H2 & [H3|H3]); try contradiction; lia.
Qed.

Section Library.
Variable base64_DecodeString : str -> result str.

(** What the code does with a servable cache: no call, no change. *)
Lemma Basic_served (c : ecrCredentials) (now : Time) client :
  ~ refresh_attempted c now ->
  Basic base64_DecodeString c now client = ((username c, password c), c, []).
Proof.
  intros H. unfold Basic.
  destruct (cached c now) eqn:E; [reflexivity|].
  apply attempted_test in E. contradiction.
Qed.

Lemma finishRefresh_failure (c : ecrCredentials) (now : Time) answer :
  refresh_fails base64_DecodeString answer ->
  exists format args,
    finishRefresh base64_DecodeString c now answer =
    (([], []), c, [Log ErrorLevel format args]).
Proof.
  intros Hf. unfold finishRefresh.
  destruct Hf as [e E|E|a rest e E Hd|a rest decoded E Hd Hc]; rewrite E.
  - eauto.
  - eauto.
  - rewrite Hd. eauto.
  - rewrite Hd. change (lit ":") with [":"%char].
    rewrite SplitN_2_absent by assumption. simpl. eauto.
Qed.

Lemma finishRefresh_success (c : ecrCredentials) (now : Time) answer
  a user pass :
  refresh_yields base64_DecodeString answer a user pass ->
  finishRefresh base64_DecodeString c now answer =
  ((user, pass), refreshed c now a user pass,
   [Log DebugLevel (lit "ECR credentials refreshed, expires at: %v")
      [ATime (new_expiry c now a)]]).
Proof.
  intros ([rest E] & Hd & Hc). unfold finishRefresh. rewrite E, Hd.
  change (lit ":") with [":"%char]. rewrite SplitN_2_first by assumption.
  cbn [length Nat.eqb negb nth].
  assert (Hx : match lifetime c with
               | Some d => if (d >? 0)%Z then Add now d
                           else Add (TimeValue (ExpiresAt a)) (- Hour)%Z
               | None => Add (TimeValue (ExpiresAt a)) (- Hour)%Z
               end = new_expiry c now a).
  { unfold new_expiry, Add. destruct (lifetime c) as [d|]; [|reflexivity].
    rewrite Z.gtb_ltb. reflexivity. }
  rewrite Hx. reflexivity.
Qed.

(** A failed refresh: one call, one line of log, the empty pair, the
    struct as it was. *)
Lemma Basic_failure (c : ecrCredentials) (now : Time) client :
  refresh_attempted c now ->
  refresh_fails base64_DecodeString (client (tokenInput c)) ->
  exists format args,
    Basic base64_DecodeString c now client =
    (([], []), c,
     [GetAuthorizationToken (tokenInput c); Log ErrorLevel format args]).
Proof.
  intros Hat Hf. apply attempted_test in Hat.
  destruct (finishRefresh_failure c now Hf) as (format & args & E).
  unfold Basic. rewrite Hat. cbv zeta. rewrite E. eauto.
Qed.

(** A successful refresh: one call, the pair split at the first colon
    stored with the new expiry and returned. *)
Lemma Basic_success (c : ecrCredentials) (now : Time) client a user pass :
  refresh_attempted c now ->
  refresh_yields base64_DecodeString (client (tokenInput c)) a user pass ->
  Basic base64_DecodeString c now client =
  ((user, pass), refreshed c now a user pass,
   [GetAuthorizationToken (tokenInput c);
    Log DebugLevel (lit "ECR credentials refreshed, expires at: %v")
      [ATime (new_expiry c now a)]]).
Proof.
  intros Hat Hy. apply attempted_test in Hat.
  unfold Basic. rewrite Hat. cbv zeta.
  rewrite (finishRefresh_success c now Hy). reflexivity.
Qed.

(** The cached pair is served without a call exactly when both strings
    are non-empty and either no lifetime is configured or the clock is
    before the stored expiry. *)
Lemma Basic_no_call_iff (c : ecrCredentials) (now : Time) client :
  exchange_calls (snd (Basic base64_DecodeString c now client)) = 0 <->
  (username c <> [] /\ password c <> [] /\
   (lifetime c = None \/ (now < expiry c)%Z)).
Proof.
  rewrite <- served_test. unfold Basic, finishRefresh.
  destruct (cached c now).
  - simpl. tauto.
  - cbv zeta. destruct (client (tokenInput c)) as [[|a rest]|e];
      try (simpl; split; discriminate).
    destruct (base64_DecodeString _) as [decoded|e];
      try (simpl; split; discriminate).
    destruct (negb (length (SplitN decoded (lit ":") 2) =? 2));
      simpl; split; discriminate.
Qed.

(** C5: a refresh that fails, at any of the four points, returns the
    empty pair; [Basic] has no error to return. *)
Theorem Basic_failure_returns_empty (c : ecrCredentials) (now : Time) client :
  refresh_attempted c now ->
  refresh_fails base64_DecodeString (client (tokenInput c)) ->
  fst (fst (Basic base64_DecodeString c now client)) = ([], []).
Proof.
  intros Hat Hf. destruct (@Basic_failure c now client Hat Hf) as (f & args & E).
  rewrite E. reflexivity.
Qed.

(** C10: a refresh that fails, at any of the four points, leaves the
    stored username, password and expiry as they were. *)
Theorem Basic_failure_keeps_cache (c : ecrCredentials) (now : Time) client :
  refresh_attempted c now ->
  refresh_fails base64_DecodeString (client (tokenInput c)) ->
  snd (fst (Basic base64_DecodeString c now client)) = c.
Proof.
  intros Hat Hf. destruct (@Basic_failure c now client Hat Hf) as (f & args & E).
  rewrite E. reflexivity.
Qed.

(** C9: the decoded token is split at its first colon only: what
    precedes it is the username, all that follows, colons included, the
    password. *)
Theorem Basic_splits_on_first_colon (c : ecrCredentials) (now : Time) client
  (a : AuthorizationData) (rest : list AuthorizationData) (user pass : str) :
  refresh_attempted c now ->
  client (tokenInput c) = Ok (a :: rest) ->
  base64_DecodeString (StringValue (AuthorizationToken a))
    = Ok (user ++ ":"%char :: pass) ->
  ~ In ":"%char user ->
  fst (fst (Basic base64_DecodeString c now client)) = (user, pass).
Proof.
  intros Hat E Hd Hu.
  rewrite (@Basic_success c now client a user pass Hat); [reflexivity|].
  repeat split; eauto.
Qed.

(** C4, as the code has it: a successful refresh stores [now + lifetime]
    when a lifetime is configured and positive, and the stated expiry of
    the token minus one hour when none is configured or the configured
    one is zero or negative. *)
Theorem Basic_refresh_expiry (c : ecrCredentials) (now : Time) client
  (a : AuthorizationData) (user pass : str) :
  refresh_attempted c now ->
  refresh_yields base64_DecodeString (client (tokenInput c)) a user pass ->
  expiry (snd (fst (Basic base64_DecodeString c now client))) =
  match lifetime c with
  | Some d => if (0 <? d)%Z then (now + d)%Z
              else (TimeValue (ExpiresAt a) - 3600000000000)%Z
  | None => (TimeValue (ExpiresAt a) - 3600000000000)%Z
  end.
Proof.
  intros Hat Hy. rewrite (@Basic_success c now client a user pass Hat Hy). reflexivity.
Qed.

End Library.

(** *** On concrete caches *)

Import Fixtures.

(** The four failures, run: the pair is empty and the stale pair stays. *)
Example Basic_failures_run :
  Basic base64_decode stale_cache (at_second 1000) client_failing
  = (([], []), stale_cache,
     [GetAuthorizationToken (tokenInput stale_cache);
      Log ErrorLevel (lit "failed to get ECR authorization token: %v")
        [AStr (lit "RequestError: send request failed")]]) /\
  Basic base64_decode stale_cache (at_second 1000) (fun _ => Ok [])
  = (([], []), stale_cache,
     [GetAuthorizationToken (tokenInput stale_cache);
      Log ErrorLevel (lit "no authorization data returned from ECR") []]) /\
  Basic base64_decode stale_cache (at_second 1000) (client_with "QVdTOnNlY3JldA=")
  = (([], []), stale_cache,
     [GetAuthorizationToken (tokenInput stale_cache);
      Log ErrorLevel (lit "failed to decode ECR authorization token: %v")
        [AStr b64_error]]) /\
  Basic base64_decode stale_cache (at_second 1000) (client_with "QVdT")
  = (([], []), stale_cache,
     [GetAuthorizationToken (tokenInput stale_cache);
      Log ErrorLevel (lit "invalid ECR authorization token format") []]).
Proof. repeat split; vm_compute; reflexivity. Qed.

Lemma Basic_failure_returns_empty_witness :
  fst (fst (Basic base64_decode stale_cache (at_second 1000) client_failing))
  = ([], []).
Proof.
  apply (@Basic_failure_returns_empty base64_decode stale_cache
           (at_second 1000) client_failing).
  - right; right. split; [discriminate|]. vm_compute. discriminate.
  - apply (@exchange_errors base64_decode _
             (lit "RequestError: send request failed")).
    reflexivity.
Defined.

Lemma Basic_failure_keeps_cache_witness :
  snd (fst (Basic base64_decode stale_cache (at_second 1000)
              (client_with "QVdT")))
  = stale_cache.
Proof.
  apply (@Basic_failure_keeps_cache base64_decode stale_cache
           (at_second 1000) (client_with "QVdT")).
  - right; right. split; [discriminate|]. vm_compute. discriminate.
  - apply (@token_without_colon base64_decode _
             {| AuthorizationToken := Some (lit "QVdT");
                ExpiresAt := Some (at_second (1000 + 12 * 3600)) |}
             [] (lit "AWS")).
    + reflexivity.
    + reflexivity.
    + simpl. intros [H|[H|[H|[]]]]; discriminate.
Defined.

(** The scenario of the specification: [AWS:secretpass:with:colons]. *)
Lemma Basic_splits_on_first_colon_witness :
  fst (fst (Basic base64_decode (fresh_cache None) (at_second 1000)
              (client_with "QVdTOnNlY3JldHBhc3M6d2l0aDpjb2xvbnM=")))
  = (lit "AWS", lit "secretpass:with:colons").
Proof.
  apply (@Basic_splits_on_first_colon base64_decode (fresh_cache None)
           (at_second 1000)
           (client_with "QVdTOnNlY3JldHBhc3M6d2l0aDpjb2xvbnM=")
           {| AuthorizationToken :=
                Some (lit "QVdTOnNlY3JldHBhc3M6d2l0aDpjb2xvbnM=");
              ExpiresAt := Some (at_second (1000 + 12 * 3600)) |}
           [] (lit "AWS") (lit "secretpass:with:colons")).
  - left. reflexivity.
  - reflexivity.
  - reflexivity.
  - simpl. intros [H|[H|[H|[]]]]; discriminate.
Defined.

Lemma Basic_refresh_expiry_witness :
  expiry (snd (fst (Basic base64_decode (fresh_cache (Some Hour))
                      (at_second 1000) (client_with "QVdTOnNlY3JldA=="))))
  = (at_second 1000 + Hour)%Z.
Proof.
  apply (@Basic_refresh_expiry base64_decode (fresh_cache (Some Hour))
           (at_second 1000) (client_with "QVdTOnNlY3JldA==")
           {| AuthorizationToken := Some (lit "QVdTOnNlY3JldA==");
              ExpiresAt := Some (at_second (1000 + 12 * 3600)) |}
           (lit "AWS") (lit "secret")).
  - left. reflexivity.
  - split; [exists []; reflexivity|]. split; [reflexivity|].
    simpl. intros [H|[H|[H|[]]]]; discriminate.
Defined.

(** C4, as stated, fails: with a lifetime of zero configured, the expiry
    stored is the stated expiry of the token minus one hour, not
    [now + 0]. *)
Lemma Basic_zero_lifetime_expiry :
  let c := fresh_cache (Some 0%Z) in
  let now := at_second 1000 in
  let c' := snd (fst (Basic base64_decode c now
                        (client_with "QVdTOnNlY3JldA=="))) in
  lifetime c = Some 0%Z /\
  username c' = lit "AWS" /\
  expiry c' = (at_second (1000 + 12 * 3600) - Hour)%Z /\
  expiry c' <> (now + 0)%Z.
Proof.
  repeat split; try (vm_compute; reflexivity). vm_compute. discriminate.
Qed.

(** C1 fails on the code: with no lifetime configured, the pair stored
    by a refresh at second 1000 (token stated to expire twelve hours
    later, expiry stored eleven hours later) is served thirteen hours
    later, past both, without a call, whatever the decoder and the
    client. *)
Theorem Basic_serves_expired_without_lifetime
  (base64_DecodeString : str -> result str)
  (client : GetAuthorizationTokenInput -> result GetAuthorizationTokenOutput) :
  let c1 := {| registryID := lit "123456789012";
               lifetime := None;
               username := lit "AWS";
               password := lit "secret";
               expiry := at_second (1000 + 11 * 3600) |} in
  let later := at_second (1000 + 13 * 3600) in
  snd (fst (Basic base64_decode (fresh_cache None) (at_second 1000)
              (client_with "QVdTOnNlY3JldA=="))) = c1 /\
  (expiry c1 < later)%Z /\
  ~ valid_at c1 later /\
  Basic base64_DecodeString c1 later client
  = ((lit "AWS", lit "secret"), c1, []) /\
  exchange_calls (snd (Basic base64_DecodeString c1 later client)) = 0.
Proof.
  intros c1 later.
  repeat split; try (vm_compute; reflexivity).
  intros (_ & _ & H). vm_compute in H. discriminate.
Qed.

End ProxyCacheFacts.

(** ** The importer *)

Module ImporterFacts.
Import Strings Regexp Ecrmirror.

Section World.
Variable env : Env.
Variable d : ecrFetcher.

(** A hit: the content of the wrapped driver, one call, nothing else. *)
Lemma GetContent_hit (h : list event) (path : str) (out : bytes) :
  driver_GetContent env h path = Ok out ->
  GetContent env d path h = (Ok out, h ++ [StoreGetContent path]).
Proof.
  intros E. unfold GetContent, bind, storeGetContent. rewrite E. reflexivity.
Qed.

(** The key is not matched: the error is [invalid path: <path>] and
    the only event the one call of the wrapped driver. *)
Lemma GetContent_unmatched (h : list event) (path : str) (e : error) :
  driver_GetContent env h path = Err e ->
  matchImportKey path = None ->
  GetContent env d path h =
  (Err (lit "invalid path: " ++ path), h ++ [StoreGetContent path]).
Proof.
  intros E Hm. unfold GetContent, bind, storeGetContent.
  rewrite E, Hm. reflexivity.
Qed.

(** C7, as the code has it: the wrapped driver fails, with whatever
    error, and the key cannot be read as
    [/docker/registry/v2/repositories/<repo>/_manifests/tags/<tag>/current/link]
    with [repo] and [tag] non-empty and free of newlines (either may
    contain [/]): the error is [invalid path: <path>], and the only
    event is the one call of the wrapped driver: no pull, tag or
    push. *)
Theorem GetContent_invalid_path (h : list event) (path : str) (e : error) :
  driver_GetContent env h path = Err e ->
  (~ exists repo tag, miss_key_shape path repo tag) ->
  GetContent env d path h =
  (Err (lit "invalid path: " ++ path), h ++ [StoreGetContent path]).
Proof.
  intros E Hn. apply GetContent_unmatched with (e := e); [exact E|].
  apply EcrmirrorFacts.matchImportKey_none. exact Hn.
Qed.

(** C3, as the code has it: the wrapped driver fails, the key is
    matched and the pull fails: the error is [failed to pull from ECR: ]
    followed by the text of the error of the pull; the image is printed
    on standard output before the pull and is not made part of the
    error; the wrapped driver is called once, and [docker pull] is the
    only command run. *)
Theorem GetContent_pull_fails (h : list event) (path repo tag : str)
  (e perr : error) :
  driver_GetContent env h path = Err e ->
  matchImportKey path = Some (repo, tag) ->
  cmd_Run env
    (h ++ [StoreGetContent path;
           Print (lit "Pulling image from ECR: " ++ image (remote d) repo tag)])
    [lit "docker"; lit "pull"; image (remote d) repo tag] = Some perr ->
  GetContent env d path h =
  (Err (lit "failed to pull from ECR: " ++ perr),
   h ++ [StoreGetContent path;
         Print (lit "Pulling image from ECR: " ++ image (remote d) repo tag);
         CmdRun [lit "docker"; lit "pull"; image (remote d) repo tag]]).
Proof.
  intros E Hm Hp.
  unfold GetContent, bind, storeGetContent. rewrite E, Hm.
  unfold pullAndImportFromECR, bind, fmtPrint, cmdRun, ret.
  rewrite <- app_assoc. cbn [app]. rewrite Hp.
  rewrite <- app_assoc. reflexivity.
Qed.

End World.

Import Fixtures.

Lemma GetContent_invalid_path_witness :
  GetContent env_commands_fail fetcher (lit "/docker/registry/v2/blobs/x") []
  = (Err (lit "invalid path: /docker/registry/v2/blobs/x"),
     [StoreGetContent (lit "/docker/registry/v2/blobs/x")]).
Proof.
  apply (@GetContent_invalid_path env_commands_fail fetcher []
           (lit "/docker/registry/v2/blobs/x") (lit "Path not found")).
  - reflexivity.
  - apply EcrmirrorFacts.matchImportKey_none. vm_compute. reflexivity.
Defined.

Lemma GetContent_pull_fails_witness :
  GetContent env_commands_fail fetcher tag_link []
  = (Err (lit "failed to pull from ECR: exit status 1"),
     [StoreGetContent tag_link;
      Print (lit "Pulling image from ECR: 123456789012.dkr.ecr.us-west-2.amazonaws.com/packoff/cv:1.0.0");
      CmdRun [lit "docker"; lit "pull";
              lit "123456789012.dkr.ecr.us-west-2.amazonaws.com/packoff/cv:1.0.0"]]).
Proof.
  apply (@GetContent_pull_fails env_commands_fail fetcher [] tag_link
           (lit "packoff/cv") (lit "1.0.0") (lit "Path not found")
           (lit "exit status 1")).
  - reflexivity.
  - vm_compute. reflexivity.
  - reflexivity.
Defined.

(** C3, as stated, fails: the error returned when the pull fails does
    not contain the name of the image. *)
Lemma GetContent_pull_error_omits_image :
  fst (GetContent env_commands_fail fetcher tag_link [])
  = Err (lit "failed to pull from ECR: exit status 1") /\
  image (remote fetcher) (lit "packoff/cv") (lit "1.0.0")
  = lit "123456789012.dkr.ecr.us-west-2.amazonaws.com/packoff/cv:1.0.0" /\
  Contains (lit "failed to pull from ECR: exit status 1")
    (image (remote fetcher) (lit "packoff/cv") (lit "1.0.0")) = false.
Proof. repeat split; vm_compute; reflexivity. Qed.

(** C7, as stated, fails: the key below does not end in
    [/_manifests/tags/<tag>/current/link] with a tag free of [/],
    whatever stands before; the wrapped driver fails; and the result
    is not an invalid path: [docker pull] is run for the tag [x/y],
    and its failure is what is returned. *)
Lemma GetContent_imports_tag_with_slash :
  let key :=
    lit "/docker/registry/v2/repositories/a/_manifests/tags/x/y/current/link" in
  ~ shape_with_plain_tag key /\
  driver_GetContent env_commands_fail [] key = Err (lit "Path not found") /\
  GetContent env_commands_fail fetcher key []
  = (Err (lit "failed to pull from ECR: exit status 1"),
     [StoreGetContent key;
      Print (lit "Pulling image from ECR: 123456789012.dkr.ecr.us-west-2.amazonaws.com/a:x/y");
      CmdRun [lit "docker"; lit "pull";
              lit "123456789012.dkr.ecr.us-west-2.amazonaws.com/a:x/y"]]).
Proof.
  intros key. split; [|split; vm_compute; reflexivity].
  intros (front & tag & E & Htag).
  apply (f_equal (@rev ascii)) in E.
  rewrite !rev_app_distr, <- !app_assoc in E.
  unfold key in E. simpl in E.
  injection E as E.
  assert (Hrev : ~ In "/"%char (rev tag)).
  { intros H. apply Htag. apply in_rev. exact H. }
  destruct (rev tag) as [|b [|b' t]]; simpl in E.
  - discriminate E.
  - discriminate E.
  - injection E as _ Hb _. apply Hrev. right. left. symmetry. exact Hb.
Qed.

(** A whole import, run: miss, pull, tag, push, and one more call of the
    wrapped driver, whose answer is returned. *)
Example GetContent_import_run :
  let remote_image :=
    lit "123456789012.dkr.ecr.us-west-2.amazonaws.com/packoff/cv:1.0.0" in
  let local_image := lit "localhost:5000/packoff/cv:1.0.0" in
  GetContent env_import_works fetcher tag_link []
  = (Ok (lit "sha256:0123"),
     [StoreGetContent tag_link;
      Print (lit "Pulling image from ECR: " ++ remote_image);
      CmdRun [lit "docker"; lit "pull"; remote_image];
      LogInfo (lit "Pulled image from ECR: %s") [remote_image];
      CmdRun [lit "docker"; lit "tag"; remote_image; local_image];
      LogInfo (lit "Tagged image: %s -> %s") [remote_image; local_image];
      CmdRun [lit "docker"; lit "push"; local_image];
      LogInfo (lit "Pushed image to local registry: %s") [local_image];
      StoreGetContent tag_link]).
Proof. vm_compute. reflexivity. Qed.

End ImporterFacts.

(** ** Concurrent callers *)

Module CallersFacts.
Import Strings GoTime Proxy Callers ProxyCacheFacts.

Lemma update_split (A : Type) (l : list A) (i : nat) (t : A) :
  nth_error l i = Some t ->
  exists l1 l2, l = l1 ++ t :: l2 /\ forall x, update i x l = l1 ++ x :: l2.
Proof.
  revert i. induction l as [|b l IH]; intros [|i] H; simpl in H;
    try discriminate.
  - injection H as ->. exists [], l. split; reflexivity.
  - destruct (IH i H) as (l1 & l2 & -> & Hu).
    exists (b :: l1), l2. split; [reflexivity|].
    intros x. simpl. rewrite Hu. reflexivity.
Qed.

Lemma holders_app (l1 l2 : list pc) (t : pc) :
  length (filter holds_mutex (l1 ++ t :: l2)) =
  length (filter holds_mutex l1) + (if holds_mutex t then 1 else 0)
  + length (filter holds_mutex l2).
Proof.
  rewrite filter_app, length_app. simpl.
  destruct (holds_mutex t); simpl; lia.
Qed.

Lemma no_holders (l : list pc) (t : pc) :
  length (filter holds_mutex l) = 0 -> In t l -> holds_mutex t = false.
Proof.
  intros H Hin. destruct (holds_mutex t) eqn:E; [|reflexivity].
  assert (Hf : In t (filter holds_mutex l)) by (apply filter_In; auto).
  destruct (filter holds_mutex l); [contradiction|discriminate].
Qed.

Lemma Forall_mid (P : pc -> Prop) (l1 l2 : list pc) (t : pc) :
  Forall P (l1 ++ t :: l2) -> P t.
Proof.
  intros H. rewrite Forall_forall in H. apply H.
  apply in_or_app. right. left. reflexivity.
Qed.

(** Replace one caller; the others, none of which holds the mutex, go
    from [P] to [Q]. *)
Lemma Forall_others (P Q : pc -> Prop) (l1 l2 : list pc) (t x : pc) :
  Forall P (l1 ++ t :: l2) ->
  length (filter holds_mutex l1) = 0 ->
  length (filter holds_mutex l2) = 0 ->
  (forall u, P u -> holds_mutex u = false -> Q u) ->
  Q x ->
  Forall Q (l1 ++ x :: l2).
Proof.
  intros H H1 H2 HPQ Hx. rewrite Forall_forall in *.
  intros u Hu. apply in_app_or in Hu. destruct Hu as [Hu|[<-|Hu]].
  - apply HPQ; [|exact (@no_holders l1 u H1 Hu)].
    apply H. apply in_or_app. auto.
  - exact Hx.
  - apply HPQ; [|exact (@no_holders l2 u H2 Hu)].
    apply H. apply in_or_app. right. right. exact Hu.
Qed.

Lemma Forall_replace (P : pc -> Prop) (l1 l2 : list pc) (t x : pc) :
  Forall P (l1 ++ t :: l2) -> P x -> Forall P (l1 ++ x :: l2).
Proof.
  intros H Hx. rewrite Forall_forall in *.
  intros u Hu. apply in_app_or in Hu. destruct Hu as [Hu|[<-|Hu]].
  - apply H. apply in_or_app. auto.
  - exact Hx.
  - apply H. apply in_or_app. right. right. exact Hu.
Qed.

Lemma exchange_calls_app (l1 l2 : list event) :
  exchange_calls (l1 ++ l2) = exchange_calls l1 + exchange_calls l2.
Proof. unfold exchange_calls. rewrite filter_app, length_app. reflexivity. Qed.

Lemma count_app (f : pc -> bool) (l1 l2 : list pc) (t : pc) :
  length (filter f (l1 ++ t :: l2)) =
  length (filter f l1) + (if f t then 1 else 0) + length (filter f l2).
Proof.
  rewrite filter_app, length_app. simpl. destruct (f t); simpl; lia.
Qed.

Section SingleFlight.
Variable base64_DecodeString : str -> result str.
Variable client :
  nat -> GetAuthorizationTokenInput -> result GetAuthorizationTokenOutput.
Variable clock : Time -> Prop.
Variable c0 : ecrCredentials.
Variable a : AuthorizationData.
Variables user pass : str.

Hypothesis stale : forall now, clock now -> refresh_attempted c0 now.
Hypothesis yields :
  refresh_yields base64_DecodeString (client 0 (tokenInput c0)) a user pass.
Hypothesis user_nonempty : user <> [].
Hypothesis pass_nonempty : pass <> [].
Hypothesis fresh :
  forall now now', clock now -> clock now' ->
    lifetime c0 = None \/ (now' < new_expiry c0 now a)%Z.

Lemma refreshed_cached (now now' : Time) :
  clock now -> clock now' ->
  cached (refreshed c0 now a user pass) now' = true.
Proof.
  intros H H'. apply served_test. simpl. auto.
Qed.

Lemma step_invariant (st st' : state) :
  mutex_exclusive st -> phase client clock c0 a user pass st ->
  step base64_DecodeString client clock st st' ->
  mutex_exclusive st' /\ phase client clock c0 a user pass st'.
Proof.
  intros Hm Hp (i & now & Hclk & He). unfold exec in He.
  destruct (nth_error (threads st) i) as [t|] eqn:Hn; [|discriminate].
  destruct (update_split _ _ Hn) as (l1 & l2 & Hl & Hu).
  unfold mutex_exclusive in *. rewrite Hl, holders_app in Hm.
  destruct t as [| |t0|t0 answer|creds].
  - (* Lock *)
    destruct (mutex st) eqn:Hmx; [discriminate|]. injection He as <-.
    simpl in *. rewrite Hu, holders_app. simpl. split; [lia|].
    destruct Hp as [Hc Hn0 Hf|Hc Hn1 Hmx' Hf|nowr Hck Hc Hn1 Hf].
    + apply before_call; simpl; auto. rewrite Hl in Hf.
      eapply Forall_replace; [exact Hf|]. auto.
    + congruence.
    + apply after_store with (now := nowr); simpl; auto. rewrite Hl in Hf.
      eapply Forall_replace; [exact Hf|]. auto.
  - (* the test of the cache *)
    simpl in Hm.
    assert (Hmx : mutex st = true) by (destruct (mutex st); [reflexivity|lia]).
    rewrite Hmx in Hm.
    destruct Hp as [Hc Hn0 Hf|Hc Hn1 Hmx' Hf|nowr Hck Hc Hn1 Hf].
    + rewrite Hc in He.
      rewrite (proj2 (attempted_test c0 now) (stale Hclk)) in He.
      injection He as <-. simpl. rewrite Hu, holders_app, Hmx. simpl.
      split; [lia|].
      apply before_call; simpl; auto. rewrite Hl in Hf.
      eapply Forall_replace; [exact Hf|]. right; right. eauto.
    + rewrite Hl in Hf. apply Forall_mid in Hf.
      destruct Hf as [Hf|(? & _ & Hf)]; discriminate.
    + rewrite Hc in He. rewrite (@refreshed_cached nowr now Hck Hclk) in He.
      injection He as <-. simpl. rewrite Hu, holders_app. simpl.
      split; [lia|].
      apply after_store with (now := nowr); simpl; auto. rewrite Hl in Hf.
      eapply Forall_replace; [exact Hf|]. auto.
  - (* the call of the client *)
    simpl in Hm.
    assert (Hmx : mutex st = true) by (destruct (mutex st); [reflexivity|lia]).
    rewrite Hmx in Hm.
    injection He as <-. simpl. rewrite Hu, holders_app, Hmx. simpl.
    split; [lia|].
    destruct Hp as [Hc Hn0 Hf|Hc Hn1 Hmx' Hf|nowr Hck Hc Hn1 Hf].
    + apply during_call; simpl; auto.
      * rewrite exchange_calls_app, Hn0. reflexivity.
      * rewrite Hl in Hf. pose proof Hf as Ht. apply Forall_mid in Ht.
        destruct Ht as [Ht|[Ht|(t1 & Hck & Ht)]]; try discriminate.
        injection Ht as <-.
        eapply Forall_others; [exact Hf|lia|lia| |].
        -- intros u [->|[->|(? & _ & ->)]] Hu'; try discriminate. auto.
        -- right. exists t0. rewrite Hn0, Hc. auto.
    + rewrite Hl in Hf. apply Forall_mid in Hf.
      destruct Hf as [Hf|(? & _ & Hf)]; discriminate.
    + rewrite Hl in Hf. apply Forall_mid in Hf.
      destruct Hf as [Hf|[Hf|Hf]]; discriminate.
  - (* the answer is handled, the function returns *)
    simpl in Hm.
    assert (Hmx : mutex st = true) by (destruct (mutex st); [reflexivity|lia]).
    rewrite Hmx in Hm.
    destruct Hp as [Hc Hn0 Hf|Hc Hn1 Hmx' Hf|nowr Hck Hc Hn1 Hf].
    + rewrite Hl in Hf. apply Forall_mid in Hf.
      destruct Hf as [Hf|[Hf|(? & _ & Hf)]]; discriminate.
    + rewrite Hl in Hf. pose proof Hf as Ht. apply Forall_mid in Ht.
      destruct Ht as [Ht|(t1 & Hck & Ht)]; [discriminate|].
      injection Ht as <- ->.
      rewrite Hc, (finishRefresh_success c0 t0 yields) in He.
      injection He as <-. simpl. rewrite Hu, holders_app. simpl.
      split; [lia|].
      apply after_store with (now := t0); simpl; auto.
      * rewrite exchange_calls_app, Hn1. reflexivity.
      * eapply Forall_others; [exact Hf|lia|lia| |]; auto.
        intros u [->|(? & _ & ->)] Hu'; [auto|discriminate].
    + rewrite Hl in Hf. apply Forall_mid in Hf.
      destruct Hf as [Hf|[Hf|Hf]]; discriminate.
  - discriminate.
Qed.

Lemma init_invariant (n : nat) :
  mutex_exclusive (init n c0) /\
  phase client clock c0 a user pass (init n c0).
Proof.
  split.
  - unfold mutex_exclusive, init. simpl.
    induction n as [|n IH]; simpl; [reflexivity|exact IH].
  - apply before_call; simpl; auto.
    apply Forall_forall. intros t Ht. apply repeat_spec in Ht. auto.
Qed.

Lemma reachable_invariant (n : nat) (st : state) :
  reachable base64_DecodeString client clock (init n c0) st ->
  mutex_exclusive st /\ phase client clock c0 a user pass st.
Proof.
  induction 1 as [|st st' _ [IHm IHp] Hstep].
  - apply init_invariant.
  - exact (step_invariant IHm IHp Hstep).
Qed.

End SingleFlight.

Section Runs.
Variable base64_DecodeString : str -> result str.
Variable client :
  nat -> GetAuthorizationTokenInput -> result GetAuthorizationTokenOutput.
Variable clock : Time -> Prop.

Lemma update_length (A : Type) (i : nat) (x : A) (l : list A) :
  length (update i x l) = length l.
Proof.
  revert i. induction l as [|b l IH]; intros [|i]; simpl; auto.
Qed.

Lemma exec_length (i : nat) (now : Time) (st st' : state) :
  exec base64_DecodeString client i now st = Some st' ->
  length (threads st') = length (threads st).
Proof.
  unfold exec. destruct (nth_error (threads st) i) as [[| |t|t answer|creds]|];
    try discriminate.
  - destruct (mutex st); [discriminate|]. intros [= <-]. apply update_length.
  - destruct (cached (cred st) now); intros [= <-]; apply update_length.
  - intros [= <-]. apply update_length.
  - destruct (finishRefresh _ _ _ _) as [[creds c'] logged].
    intros [= <-]. apply update_length.
Qed.

Lemma reachable_length (st0 st : state) :
  reachable base64_DecodeString client clock st0 st ->
  length (threads st) = length (threads st0).
Proof.
  induction 1 as [|st st' _ IH (i & now & _ & He)]; [reflexivity|].
  rewrite (exec_length _ _ _ He). exact IH.
Qed.

(** A schedule whose instants the clock shows is a run. *)
Lemma run_reachable (schedule : list (nat * Time)) (st0 st st' : state) :
  Forall (fun e => clock (snd e)) schedule ->
  reachable base64_DecodeString client clock st0 st ->
  run base64_DecodeString client schedule st = Some st' ->
  reachable base64_DecodeString client clock st0 st'.
Proof.
  intros Hs. revert st. induction Hs as [|[i now] rest Hc _ IH];
    intros st Hr Hrun; simpl in Hrun.
  - injection Hrun as <-. exact Hr.
  - destruct (exec base64_DecodeString client i now st) as [st1|] eqn:He;
      [|discriminate].
    apply (IH st1); [|exact Hrun].
    apply reach_step with (st := st); [exact Hr|].
    exists i, now. auto.
Qed.

(** While a caller has not returned, some caller can take a step: the
    one holding the mutex, or, the mutex free, any that waits. *)
Lemma callers_progress (st : state) (now : Time) :
  clock now ->
  mutex_exclusive st ->
  ~ all_returned st ->
  exists st', step base64_DecodeString client clock st st'.
Proof.
  intros Hclk Hm Hnot. unfold mutex_exclusive in Hm.
  assert (Hex : exists t, In t (threads st) /\
                          (if mutex st then holds_mutex t = true
                           else t = Waiting)).
  { destruct (mutex st).
    - destruct (filter holds_mutex (threads st)) as [|t l] eqn:E;
        [discriminate|].
      assert (Hin : In t (filter holds_mutex (threads st)))
        by (rewrite E; left; reflexivity).
      apply filter_In in Hin. exists t. exact Hin.
    - unfold all_returned in Hnot.
      assert (Hx : exists t, In t (threads st) /\ has_returned t = false).
      { clear Hm. induction (threads st) as [|t l IH]; simpl in Hnot.
        - congruence.
        - destruct (has_returned t) eqn:Ht.
          + destruct (IH Hnot) as (u & Hu & Hr). exists u. simpl. auto.
          + exists t. simpl. auto. }
      destruct Hx as (t & Hin & Hr). exists t. split; [exact Hin|].
      pose proof (@no_holders (threads st) t Hm Hin) as Hh.
      destruct t; simpl in *; congruence. }
  destruct Hex as (t & Hin & Ht).
  apply In_nth_error in Hin. destruct Hin as [i Hi].
  unfold step.
  destruct (mutex st) eqn:Hmx.
  - destruct t as [| |t0|t0 answer|creds]; try discriminate.
    + destruct (cached (cred st) now) eqn:Hc.
      * eexists. exists i, now. split; [exact Hclk|].
        unfold exec. rewrite Hi, Hc. reflexivity.
      * eexists. exists i, now. split; [exact Hclk|].
        unfold exec. rewrite Hi, Hc. reflexivity.
    + eexists. exists i, now. split; [exact Hclk|].
      unfold exec. rewrite Hi. reflexivity.
    + destruct (finishRefresh base64_DecodeString (cred st) t0 answer)
        as [[creds c'] logged] eqn:Hf.
      eexists. exists i, now. split; [exact Hclk|].
      unfold exec. rewrite Hi, Hf. reflexivity.
  - subst t. eexists. exists i, now. split; [exact Hclk|].
    unfold exec. rewrite Hi, Hmx. reflexivity.
Qed.

Lemma step_mutex (st st' : state) :
  mutex_exclusive st ->
  step base64_DecodeString client clock st st' ->
  mutex_exclusive st'.
Proof.
  intros Hm (i & now & _ & He). unfold exec in He.
  destruct (nth_error (threads st) i) as [t|] eqn:Hn; [|discriminate].
  destruct (update_split _ _ Hn) as (l1 & l2 & Hl & Hu).
  unfold mutex_exclusive in *. rewrite Hl, count_app in Hm.
  destruct t as [| |t0|t0 answer|creds]; simpl in Hm.
  - destruct (mutex st); [discriminate|]. injection He as <-.
    simpl. rewrite Hu, count_app. simpl. lia.
  - assert (Hmx : mutex st = true) by (destruct (mutex st); [reflexivity|lia]).
    rewrite Hmx in Hm.
    destruct (cached (cred st) now); injection He as <-; simpl;
      rewrite Hu, count_app; simpl; try rewrite Hmx; lia.
  - assert (Hmx : mutex st = true) by (destruct (mutex st); [reflexivity|lia]).
    rewrite Hmx in Hm. injection He as <-. simpl.
    rewrite Hu, count_app, Hmx. simpl. lia.
  - assert (Hmx : mutex st = true) by (destruct (mutex st); [reflexivity|lia]).
    rewrite Hmx in Hm.
    destruct (finishRefresh base64_DecodeString (cred st) t0 answer)
      as [[creds c'] logged].
    injection He as <-. simpl. rewrite Hu, count_app. simpl. lia.
  - discriminate.
Qed.

Lemma remaining_app (l1 l2 : list pc) (t : pc) :
  list_sum (map steps_left (l1 ++ t :: l2)) =
  list_sum (map steps_left l1) + steps_left t + list_sum (map steps_left l2).
Proof. rewrite map_app, list_sum_app. simpl. lia. Qed.

(** Every step uses up one of the steps left, or more. *)
Lemma step_remaining (st st' : state) :
  step base64_DecodeString client clock st st' ->
  remaining st' < remaining st.
Proof.
  intros (i & now & _ & He). unfold exec in He. unfold remaining.
  destruct (nth_error (threads st) i) as [t|] eqn:Hn; [|discriminate].
  destruct (update_split _ _ Hn) as (l1 & l2 & Hl & Hu).
  rewrite Hl, remaining_app.
  destruct t as [| |t0|t0 answer|creds].
  - destruct (mutex st); [discriminate|]. injection He as <-.
    simpl. rewrite Hu, remaining_app. simpl. lia.
  - destruct (cached (cred st) now); injection He as <-; simpl;
      rewrite Hu, remaining_app; simpl; lia.
  - injection He as <-. simpl. rewrite Hu, remaining_app. simpl. lia.
  - destruct (finishRefresh base64_DecodeString (cred st) t0 answer)
      as [[creds c'] logged].
    injection He as <-. simpl. rewrite Hu, remaining_app. simpl. lia.
  - discriminate.
Qed.

Lemma reachable_remaining (st0 st : state) :
  reachable base64_DecodeString client clock st0 st ->
  remaining st <= remaining st0.
Proof.
  induction 1 as [|st st' _ IH Hstep]; [lia|].
  pose proof (step_remaining Hstep). lia.
Qed.

Lemma reachable_mutex (st0 st : state) :
  mutex_exclusive st0 ->
  reachable base64_DecodeString client clock st0 st ->
  mutex_exclusive st.
Proof.
  intros H0. induction 1 as [|st st' _ IH Hstep]; [exact H0|].
  exact (step_mutex IH Hstep).
Qed.

Lemma reachable_first (st0 st1 st : state) :
  step base64_DecodeString client clock st0 st1 ->
  reachable base64_DecodeString client clock st1 st ->
  reachable base64_DecodeString client clock st0 st.
Proof.
  intros Hs. induction 1 as [|st st' _ IH Hstep].
  - apply reach_step with (st := st0); [apply reach_here|exact Hs].
  - apply reach_step with (st := st); assumption.
Qed.

(** From a state where the mutex is held as it should, the callers can
    be run until all have returned. *)
Lemma callers_complete (now : Time) (m : nat) (st : state) :
  clock now ->
  remaining st <= m ->
  mutex_exclusive st ->
  exists st',
    reachable base64_DecodeString client clock st st' /\ all_returned st'.
Proof.
  intros Hclk. revert st. induction m as [|m IH]; intros st Hm Hmx.
  - destruct (forallb has_returned (threads st)) eqn:Ha.
    + exists st. split; [apply reach_here|exact Ha].
    + assert (Hnot : ~ all_returned st)
        by (unfold all_returned; rewrite Ha; discriminate).
      destruct (callers_progress Hclk Hmx Hnot) as [st1 Hs].
      pose proof (step_remaining Hs). lia.
  - destruct (forallb has_returned (threads st)) eqn:Ha.
    + exists st. split; [apply reach_here|exact Ha].
    + assert (Hnot : ~ all_returned st)
        by (unfold all_returned; rewrite Ha; discriminate).
      destruct (callers_progress Hclk Hmx Hnot) as [st1 Hs].
      pose proof (step_remaining Hs) as Hlt.
      destruct (IH st1) as (st' & Hr & Hall); [lia|exact (step_mutex Hmx Hs)|].
      exists st'. split; [exact (reachable_first Hs Hr)|exact Hall].
Qed.

Lemma remaining_init (n : nat) (c : ecrCredentials) :
  remaining (init n c) = 4 * n.
Proof.
  unfold remaining, init. simpl.
  induction n as [|n IH]; simpl; [reflexivity|]. rewrite IH. lia.
Qed.

End Runs.

(** What holds of every state of such a run: the mutex, the number of
    calls, and what the callers have returned once all have. *)
Lemma one_call_safety
  (base64_DecodeString : str -> result str)
  (client : nat -> GetAuthorizationTokenInput ->
            result GetAuthorizationTokenOutput)
  (clock : Time -> Prop) (c0 : ecrCredentials) (a : AuthorizationData)
  (user pass : str) (n : nat) (st : state) :
  (forall now, clock now -> refresh_attempted c0 now) ->
  refresh_yields base64_DecodeString (client 0 (tokenInput c0)) a user pass ->
  user <> [] -> pass <> [] ->
  (forall now now', clock now -> clock now' ->
     lifetime c0 = None \/ (now' < new_expiry c0 now a)%Z) ->
  0 < n ->
  reachable base64_DecodeString client clock (init n c0) st ->
  mutex_exclusive st /\
  length (threads st) = n /\
  exchange_calls (events st) <= 1 /\
  (all_returned st ->
   exchange_calls (events st) = 1 /\
   Forall (fun t => t = Returned (user, pass)) (threads st) /\
   mutex st = false).
Proof.
  intros Hstale Hy Hu Hp Hfresh Hn Hr.
  destruct (reachable_invariant Hstale Hy Hu Hp Hfresh Hr) as [Hm Hph].
  pose proof (reachable_length Hr) as Hlen. simpl in Hlen.
  rewrite repeat_length in Hlen.
  split; [exact Hm|]. split; [exact Hlen|].
  assert (Hnone : forall P : pc -> Prop,
             (forall t, P t -> has_returned t = false) ->
             Forall P (threads st) -> all_returned st -> False).
  { intros P HP Hf Hall. unfold all_returned in Hall.
    destruct (threads st) as [|t l]; [simpl in Hlen; lia|].
    simpl in Hall. apply andb_true_iff in Hall. destruct Hall as [Ht _].
    apply Forall_inv in Hf. apply HP in Hf. congruence. }
  destruct Hph as [Hc Hn0 Hf|Hc Hn1 Hmx Hf|nowr Hck Hc Hn1 Hf].
  - split; [lia|]. intros Hall. exfalso.
    eapply Hnone; [|exact Hf|exact Hall].
    intros t [->|[->|(? & _ & ->)]]; reflexivity.
  - split; [lia|]. intros Hall. exfalso.
    eapply Hnone; [|exact Hf|exact Hall].
    intros t [->|(? & _ & ->)]; reflexivity.
  - split; [lia|]. intros Hall. split; [exact Hn1|]. split.
    + unfold all_returned in Hall. rewrite forallb_forall in Hall.
      rewrite Forall_forall in *. intros t Ht.
      specialize (Hall t Ht). destruct (Hf t Ht) as [-> | [-> | ->]];
        try discriminate. reflexivity.
    + unfold mutex_exclusive, all_returned in *.
      destruct (mutex st); [|reflexivity]. exfalso.
      destruct (filter holds_mutex (threads st)) as [|t l] eqn:E;
        [discriminate|].
      assert (Hin : In t (filter holds_mutex (threads st)))
        by (rewrite E; left; reflexivity).
      apply filter_In in Hin. destruct Hin as [Hin Hh].
      rewrite forallb_forall in Hall. specialize (Hall t Hin).
      destruct t; discriminate.
Qed.

Lemma reachable_trans
  (base64_DecodeString : str -> result str)
  (client : nat -> GetAuthorizationTokenInput ->
            result GetAuthorizationTokenOutput)
  (clock : Time -> Prop) (st0 st1 st2 : state) :
  reachable base64_DecodeString client clock st0 st1 ->
  reachable base64_DecodeString client clock st1 st2 ->
  reachable base64_DecodeString client clock st0 st2.
Proof.
  intros H1. induction 1 as [|st st' _ IH Hstep]; [exact H1|].
  apply reach_step with (st := st); assumption.
Qed.

(** C6, as the code has it: [n >= 1] callers start while the cached
    credential is stale at every instant the clock shows during the
    run.  If the first call of the client yields a token that decodes
    to a non-empty username and a non-empty password, and the
    credential this stores is one [Basic] serves at every instant of
    the run (no lifetime configured, or the clock before the new
    expiry), then, in every state of every run: the mutex is held by at
    most one caller and exactly while one is between [Lock] and its
    return; at most one call of the client has been made; once all
    callers have returned exactly one has been made, every caller has
    returned the stored pair and the mutex is free.  And the callers do
    return: every step uses up one of the at most [4 * n] steps the
    callers have left, so no run goes on for ever; while a caller has
    not returned some caller can take a step, so a run stops only when
    all have returned; and from every state the run can be carried on
    to a state where all have returned, with one call made and the
    stored pair returned by every caller. *)
Theorem single_flight
  (base64_DecodeString : str -> result str)
  (client : nat -> GetAuthorizationTokenInput ->
            result GetAuthorizationTokenOutput)
  (clock : Time -> Prop) (c0 : ecrCredentials) (a : AuthorizationData)
  (user pass : str) (n : nat) (now0 : Time) (st : state) :
  (forall now, clock now -> refresh_attempted c0 now) ->
  refresh_yields base64_DecodeString (client 0 (tokenInput c0)) a user pass ->
  user <> [] -> pass <> [] ->
  (forall now now', clock now -> clock now' ->
     lifetime c0 = None \/ (now' < new_expiry c0 now a)%Z) ->
  clock now0 ->
  0 < n ->
  reachable base64_DecodeString client clock (init n c0) st ->
  mutex_exclusive st /\
  length (threads st) = n /\
  exchange_calls (events st) <= 1 /\
  (all_returned st ->
   exchange_calls (events st) = 1 /\
   Forall (fun t => t = Returned (user, pass)) (threads st) /\
   mutex st = false) /\
  remaining st <= 4 * n /\
  (forall st', step base64_DecodeString client clock st st' ->
               remaining st' < remaining st) /\
  (~ all_returned st ->
   exists st', step base64_DecodeString client clock st st') /\
  (exists st',
     reachable base64_DecodeString client clock st st' /\
     all_returned st' /\
     exchange_calls (events st') = 1 /\
     Forall (fun t => t = Returned (user, pass)) (threads st') /\
     mutex st' = false).
Proof.
  intros Hstale Hy Hu Hp Hfresh Hclk Hn Hr.
  destruct (@one_call_safety base64_DecodeString client clock c0 a
              user pass n st Hstale Hy Hu Hp Hfresh Hn Hr)
    as (Hm & Hlen & Hle & Hall).
  split; [exact Hm|]. split; [exact Hlen|]. split; [exact Hle|].
  split; [exact Hall|].
  split.
  { pose proof (reachable_remaining Hr) as H.
    rewrite remaining_init in H. exact H. }
  split.
  { intros st' Hs. exact (step_remaining Hs). }
  split.
  { intros Hnot.
    exact (@callers_progress base64_DecodeString client clock st now0
             Hclk Hm Hnot). }
  destruct (@callers_complete base64_DecodeString client clock now0
              (remaining st) st Hclk (le_n _) Hm) as (st' & Hr' & Ha').
  exists st'. split; [exact Hr'|]. split; [exact Ha'|].
  pose proof (reachable_trans Hr Hr') as Hr0.
  destruct (@one_call_safety base64_DecodeString client clock c0 a
              user pass n st' Hstale Hy Hu Hp Hfresh Hn Hr0)
    as (_ & _ & _ & Hall').
  exact (Hall' Ha').
Qed.

(** *** Runs of concrete callers *)

Import Fixtures.

Lemma stale_during_run (now : Time) :
  run_clock now -> refresh_attempted stale_cache now.
Proof.
  intros [H _]. right; right. split; [discriminate|].
  simpl. unfold at_second in *. lia.
Qed.

Lemma three_callers_reachable :
  reachable base64_decode (fun _ => client_with "QVdTOnNlY3JldA==") run_clock
    (init 3 stale_cache)
    (final_state (fun _ => client_with "QVdTOnNlY3JldA==") three_callers
       (init 3 stale_cache)).
Proof.
  apply run_reachable with (schedule := three_callers)
                           (st := init 3 stale_cache).
  - unfold three_callers, run_clock, at_second.
    repeat constructor; simpl; lia.
  - apply reach_here.
  - vm_compute. reflexivity.
Qed.

(** Three callers on a stale cache, the client answering with a token
    for [AWS:secret]: one call, and the three return that pair. *)
Lemma single_flight_witness :
  let st := final_state (fun _ => client_with "QVdTOnNlY3JldA==")
              three_callers (init 3 stale_cache) in
  all_returned st /\
  exchange_calls (events st) = 1 /\
  Forall (fun t => t = Returned (lit "AWS", lit "secret")) (threads st).
Proof.
  intros st.
  assert (Hall : all_returned st) by (vm_compute; reflexivity).
  split; [exact Hall|].
  destruct (@single_flight base64_decode
              (fun _ => client_with "QVdTOnNlY3JldA==") run_clock stale_cache
              {| AuthorizationToken := Some (lit "QVdTOnNlY3JldA==");
                 ExpiresAt := Some (at_second (1000 + 12 * 3600)) |}
              (lit "AWS") (lit "secret") 3 (at_second 1000) st)
    as (_ & _ & _ & H & _).
  - exact stale_during_run.
  - split; [exists []; reflexivity|]. split; [reflexivity|].
    simpl. intros [H|[H|[H|[]]]]; discriminate.
  - discriminate.
  - discriminate.
  - intros now now' [H1 _] [_ H2]. right.
    unfold new_expiry, at_second in *. simpl. unfold Hour. lia.
  - unfold run_clock, at_second. lia.
  - lia.
  - exact three_callers_reachable.
  - destruct (H Hall) as (H1 & H2 & _). split; assumption.
Defined.

(** C6, as stated, fails: two callers find the cache stale and the
    client fails; each of them, in its turn under the mutex, calls the
    client, and both return the empty pair: two calls, not one. *)
Lemma two_callers_two_exchanges :
  let st := final_state (fun _ => client_failing) two_callers
              (init 2 stale_cache) in
  (forall now, run_clock now -> refresh_attempted stale_cache now) /\
  reachable base64_decode (fun _ => client_failing) run_clock
    (init 2 stale_cache) st /\
  all_returned st /\
  exchange_calls (events st) = 2 /\
  threads st = [Returned ([], []); Returned ([], [])].
Proof.
  intros st. split; [exact stale_during_run|]. split.
  - apply run_reachable with (schedule := two_callers)
                             (st := init 2 stale_cache).
    + unfold two_callers, run_clock, at_second.
      repeat constructor; simpl; lia.
    + apply reach_here.
    + vm_compute. reflexivity.
  - repeat split; vm_compute; reflexivity.
Qed.

End CallersFacts.

(** ** More on the credential cache *)

Module CacheMoreFacts.
Import Strings GoTime Proxy StringsFacts ProxyCacheFacts.

Section Library.
Variable base64_DecodeString : str -> result str.

(** Whatever the answer, handling it logs one line and leaves the
    registry and the lifetime of the struct alone. *)
Lemma finishRefresh_shape (c : ecrCredentials) (now : Time) answer :
  exists creds c' lvl format args,
    finishRefresh base64_DecodeString c now answer
    = (creds, c', [Log lvl format args]) /\
    registryID c' = registryID c /\ lifetime c' = lifetime c.
Proof.
  unfold finishRefresh.
  destruct answer as [[|a rest]|e]; try (do 5 eexists; split; [reflexivity|]; auto).
  destruct (base64_DecodeString _) as [decoded|e];
    try (do 5 eexists; split; [reflexivity|]; auto).
  cbv zeta.
  destruct (negb (length (SplitN decoded (lit ":") 2) =? 2));
    do 5 eexists; split; try reflexivity; auto.
Qed.

(** X1: while both strings are non-empty and either no lifetime is
    configured or the clock is before the stored expiry, [Basic]
    returns the stored pair, calls nothing, logs nothing and leaves the
    struct as it is. *)
Theorem Basic_cached_is_noop (c : ecrCredentials) (now : Time) client :
  username c <> [] ->
  password c <> [] ->
  lifetime c = None \/ (now < expiry c)%Z ->
  Basic base64_DecodeString c now client = ((username c, password c), c, []).
Proof.
  intros Hu Hp Hl. unfold Basic.
  rewrite (proj2 (served_test c now)) by auto. reflexivity.
Qed.

(** X2: one call of [Basic] makes at most one call of the client, and
    makes it exactly when a string of the cache is empty or a lifetime
    is configured and the clock has reached the stored expiry; it logs
    one line when it makes the call and none when it does not, so at
    most one line. *)
Theorem Basic_calls_at_most_once (c : ecrCredentials) (now : Time) client :
  exchange_calls (snd (Basic base64_DecodeString c now client)) <= 1 /\
  (exchange_calls (snd (Basic base64_DecodeString c now client)) = 1 <->
   refresh_attempted c now) /\
  log_lines (snd (Basic base64_DecodeString c now client))
  = exchange_calls (snd (Basic base64_DecodeString c now client)) /\
  log_lines (snd (Basic base64_DecodeString c now client)) <= 1.
Proof.
  rewrite <- attempted_test. unfold Basic.
  destruct (cached c now).
  - unfold exchange_calls, log_lines. simpl.
    split; [lia|]. split; [|split; [reflexivity|lia]].
    split; intros H; discriminate H.
  - cbv zeta.
    destruct (finishRefresh_shape c now (client (tokenInput c)))
      as (creds & c' & lvl & format & args & E & _).
    rewrite E. unfold exchange_calls, log_lines. simpl. repeat split; auto.
Qed.

(** X3: after a refresh that stored a non-empty username and password,
    a later call, while no lifetime is configured or the clock is
    before the new expiry, returns that pair without calling the
    client and changes nothing. *)
Theorem Basic_reuse_after_refresh (c : ecrCredentials) (now later : Time)
  client client' (a : AuthorizationData) (user pass : str) :
  refresh_attempted c now ->
  refresh_yields base64_DecodeString (client (tokenInput c)) a user pass ->
  user <> [] -> pass <> [] ->
  lifetime c = None \/ (later < new_expiry c now a)%Z ->
  Basic base64_DecodeString
    (snd (fst (Basic base64_DecodeString c now client))) later client'
  = ((user, pass), snd (fst (Basic base64_DecodeString c now client)), []).
Proof.
  intros Hat Hy Hu Hp Hl.
  rewrite (@Basic_success base64_DecodeString c now client a user pass Hat Hy).
  cbn [fst snd]. unfold Basic.
  rewrite (proj2 (served_test (refreshed c now a user pass) later));
    [reflexivity|].
  simpl. auto.
Qed.

(** X4: a token that decodes to a pair with an empty username or an
    empty password is accepted: the pair is returned and stored; but it
    is never served from the cache: every later call refreshes again,
    at whatever instant. *)
Theorem Basic_empty_half_never_cached (c : ecrCredentials) (now : Time) client
  (a : AuthorizationData) (user pass : str) :
  refresh_attempted c now ->
  refresh_yields base64_DecodeString (client (tokenInput c)) a user pass ->
  user = [] \/ pass = [] ->
  fst (fst (Basic base64_DecodeString c now client)) = (user, pass) /\
  username (snd (fst (Basic base64_DecodeString c now client))) = user /\
  password (snd (fst (Basic base64_DecodeString c now client))) = pass /\
  forall later client',
    exchange_calls
      (snd (Basic base64_DecodeString
              (snd (fst (Basic base64_DecodeString c now client)))
              later client')) = 1.
Proof.
  intros Hat Hy He.
  rewrite (@Basic_success base64_DecodeString c now client a user pass Hat Hy).
  cbn [fst snd]. repeat split.
  intros later client'. unfold Basic.
  rewrite (proj2 (attempted_test (refreshed c now a user pass) later)).
  - cbv zeta.
    destruct (finishRefresh_shape (refreshed c now a user pass) later
                (client' (tokenInput (refreshed c now a user pass))))
      as (creds & c' & lvl & format & args & E & _).
    rewrite E. reflexivity.
  - unfold refresh_attempted. simpl. tauto.
Qed.

(** X5: of the records of the answer only the first is read: two
    answers with the same first record give the same pair, the same
    struct and the same events. *)
Theorem Basic_uses_first_record (c : ecrCredentials) (now : Time)
  client client' (a : AuthorizationData) (rest rest' : list AuthorizationData) :
  client (tokenInput c) = Ok (a :: rest) ->
  client' (tokenInput c) = Ok (a :: rest') ->
  Basic base64_DecodeString c now client
  = Basic base64_DecodeString c now client'.
Proof.
  intros E E'. unfold Basic. rewrite E, E'. reflexivity.
Qed.

(** X6: [Basic] never changes the registry or the lifetime of the
    struct, and every call of the client it makes asks for the
    registry of the struct alone, or for no registry in particular
    when the struct has none. *)
Theorem Basic_keeps_registry_and_lifetime (c : ecrCredentials) (now : Time)
  client :
  registryID (snd (fst (Basic base64_DecodeString c now client)))
  = registryID c /\
  lifetime (snd (fst (Basic base64_DecodeString c now client)))
  = lifetime c /\
  forall input,
    In (GetAuthorizationToken input)
       (snd (Basic base64_DecodeString c now client)) ->
    RegistryIds input
    = match registryID c with [] => [] | _ :: _ => [registryID c] end.
Proof.
  unfold Basic. destruct (cached c now).
  - simpl. repeat split. intros input [].
  - cbv zeta.
    destruct (finishRefresh_shape c now (client (tokenInput c)))
      as (creds & c' & lvl & format & args & E & Hr & Hl).
    rewrite E. cbn [fst snd]. repeat split; try assumption.
    intros input [H|[H|[]]]; [|discriminate].
    injection H as <-. unfold tokenInput. simpl.
    destruct (registryID c); reflexivity.
Qed.

(** X23: a failed refresh is not remembered: the struct is as it was,
    so a call at the same or a later instant finds the cache stale
    again and calls the client again. *)
Theorem Basic_failure_retried (c : ecrCredentials) (now later : Time)
  client client' :
  refresh_attempted c now ->
  refresh_fails base64_DecodeString (client (tokenInput c)) ->
  (now <= later)%Z ->
  exchange_calls
    (snd (Basic base64_DecodeString
            (snd (fst (Basic base64_DecodeString c now client)))
            later client')) = 1.
Proof.
  intros Hat Hf Hle.
  destruct (@Basic_failure base64_DecodeString c now client Hat Hf)
    as (format & args & E).
  rewrite E. cbn [fst snd]. unfold Basic.
  rewrite (proj2 (attempted_test c later)).
  - cbv zeta.
    destruct (finishRefresh_shape c later (client' (tokenInput c)))
      as (creds & c' & lvl & format' & args' & E' & _).
    rewrite E'. reflexivity.
  - destruct Hat as [H|[H|[H1 H2]]]; [left; exact H|right; left; exact H|].
    right; right. split; [exact H1|lia].
Qed.

End Library.

Import Fixtures.

Lemma Basic_failure_retried_witness :
  exchange_calls
    (snd (Basic base64_decode
            (snd (fst (Basic base64_decode stale_cache (at_second 1000)
                         client_failing)))
            (at_second 1001) client_failing)) = 1.
Proof.
  apply (@Basic_failure_retried base64_decode stale_cache (at_second 1000)
           (at_second 1001) client_failing client_failing).
  - right; right. split; [discriminate|]. vm_compute. discriminate.
  - apply (@exchange_errors base64_decode _
             (lit "RequestError: send request failed")).
    reflexivity.
  - vm_compute. discriminate.
Defined.

Lemma Basic_cached_is_noop_witness :
  Basic base64_decode
    {| registryID := lit "123456789012"; lifetime := Some Hour;
       username := lit "AWS"; password := lit "secret";
       expiry := at_second 4600 |}
    (at_second 4599) client_failing
  = ((lit "AWS", lit "secret"),
     {| registryID := lit "123456789012"; lifetime := Some Hour;
        username := lit "AWS"; password := lit "secret";
        expiry := at_second 4600 |}, []).
Proof.
  apply (@Basic_cached_is_noop base64_decode
           {| registryID := lit "123456789012"; lifetime := Some Hour;
              username := lit "AWS"; password := lit "secret";
              expiry := at_second 4600 |}
           (at_second 4599) client_failing).
  - discriminate.
  - discriminate.
  - right. reflexivity.
Defined.

Lemma Basic_reuse_after_refresh_witness :
  Basic base64_decode
    (snd (fst (Basic base64_decode stale_cache (at_second 1000)
                 (client_with "QVdTOnNlY3JldA=="))))
    (at_second 4599) client_failing
  = ((lit "AWS", lit "secret"),
     snd (fst (Basic base64_decode stale_cache (at_second 1000)
                 (client_with "QVdTOnNlY3JldA=="))), []).
Proof.
  apply (@Basic_reuse_after_refresh base64_decode stale_cache
           (at_second 1000) (at_second 4599)
           (client_with "QVdTOnNlY3JldA==") client_failing
           {| AuthorizationToken := Some (lit "QVdTOnNlY3JldA==");
              ExpiresAt := Some (at_second (1000 + 12 * 3600)) |}
           (lit "AWS") (lit "secret")).
  - right; right. split; [discriminate|]. vm_compute. discriminate.
  - split; [exists []; reflexivity|]. split; [reflexivity|].
    simpl. intros [H|[H|[H|[]]]]; discriminate.
  - discriminate.
  - discriminate.
  - right. reflexivity.
Defined.

(** The token of [:secret]: the username is empty. *)
Lemma Basic_empty_half_never_cached_witness :
  fst (fst (Basic base64_decode (fresh_cache None) (at_second 1000)
              (client_with "OnNlY3JldA==")))
  = ([], lit "secret") /\
  exchange_calls
    (snd (Basic base64_decode
            (snd (fst (Basic base64_decode (fresh_cache None)
                         (at_second 1000) (client_with "OnNlY3JldA=="))))
            (at_second 1001) (client_with "OnNlY3JldA=="))) = 1.
Proof.
  destruct (@Basic_empty_half_never_cached base64_decode (fresh_cache None)
              (at_second 1000) (client_with "OnNlY3JldA==")
              {| AuthorizationToken := Some (lit "OnNlY3JldA==");
                 ExpiresAt := Some (at_second (1000 + 12 * 3600)) |}
              [] (lit "secret")) as (H1 & _ & _ & H2).
  - left. reflexivity.
  - split; [exists []; reflexivity|]. split; [reflexivity|]. intros [].
  - left. reflexivity.
  - split; [exact H1|]. apply H2.
Defined.

Lemma Basic_uses_first_record_witness :
  Basic base64_decode stale_cache (at_second 1000)
    (client_with "QVdTOnNlY3JldA==")
  = Basic base64_decode stale_cache (at_second 1000)
      (fun _ => Ok [ {| AuthorizationToken := Some (lit "QVdTOnNlY3JldA==");
                        ExpiresAt := Some (at_second (1000 + 12 * 3600)) |};
                     {| AuthorizationToken := Some (lit "QVdT");
                        ExpiresAt := None |} ]).
Proof.
  apply (@Basic_uses_first_record base64_decode stale_cache (at_second 1000)
           (client_with "QVdTOnNlY3JldA==")
           (fun _ => Ok [ {| AuthorizationToken := Some (lit "QVdTOnNlY3JldA==");
                             ExpiresAt := Some (at_second (1000 + 12 * 3600)) |};
                          {| AuthorizationToken := Some (lit "QVdT");
                             ExpiresAt := None |} ])
           {| AuthorizationToken := Some (lit "QVdTOnNlY3JldA==");
              ExpiresAt := Some (at_second (1000 + 12 * 3600)) |}
           []
           [ {| AuthorizationToken := Some (lit "QVdT"); ExpiresAt := None |} ]).
  - reflexivity.
  - reflexivity.
Defined.

End CacheMoreFacts.

(** ** More on the registry URL, and [configureECRAuth] *)

Module ConfigureFacts.
Import Strings Regexp GoTime Proxy StringsFacts RegexpFacts ProxyURLFacts
  ProxyCacheFacts.

Lemma is_empty_true (s : str) : is_empty s = true <-> s = [].
Proof. destruct s; simpl; split; congruence. Qed.

(** A host of the ECR shape ends in [m]. *)
Lemma ecr_host_last (host a r : str) :
  ecr_host_shape host a r -> last host "0"%char = "m"%char.
Proof.
  intros (E & _). rewrite E.
  change (lit ".amazonaws.com") with (lit ".amazonaws.co" ++ ["m"%char]).
  rewrite !app_assoc. apply last_last.
Qed.

Lemma digits_last (port : str) :
  port <> [] -> Forall (fun c => is_digit c = true) port ->
  is_digit (last port "0"%char) = true.
Proof.
  intros Hne Hd. destruct (exists_last Hne) as (p & x & ->).
  rewrite last_last. rewrite Forall_forall in Hd. apply Hd.
  apply in_or_app. right. left. reflexivity.
Qed.

Lemma host_with_port_no_shape (h port a r : str) :
  port <> [] -> Forall (fun c => is_digit c = true) port ->
  ~ ecr_host_shape (h ++ ":"%char :: port) a r.
Proof.
  intros Hne Hd Hs. apply ecr_host_last in Hs.
  pose proof (digits_last Hne Hd) as Hl.
  destruct (exists_last Hne) as (p & x & ->).
  change (h ++ ":"%char :: p ++ [x]) with (h ++ (":"%char :: p) ++ [x]) in Hs.
  rewrite app_assoc, last_last in Hs. rewrite last_last in Hl.
  subst x. discriminate.
Qed.

Section Library.
Variable url_Parse : str -> result URL.

Lemma parseECRURL_no_shape (url : str) (u : URL) :
  url_Parse url = Ok u ->
  (forall a r, ~ ecr_host_shape (Host u) a r) ->
  parseECRURL url_Parse url
  = Err (lit "URL does not match ECR registry pattern: " ++ Host u).
Proof.
  intros E Hn. unfold parseECRURL. rewrite E.
  destruct (find_two_groups_cases [] Digit (lit ".dkr.ecr.") (NotChar ".")
              (lit ".amazonaws.com") (Host u)) as [F|(g1 & g2 & F)];
    fold ecrURLPattern in F; rewrite F.
  - reflexivity.
  - apply find_ecr in F. destruct (Hn _ _ F).
Qed.

(** X7: a URL whose host carries a port is not an ECR URL, whatever
    precedes the port: [isECRURL] is false and [parseECRURL] returns
    the error of a host that does not match, the host in its text. *)
Theorem url_with_port_is_not_ecr (url : str) (u : URL) (h port : str) :
  url_Parse url = Ok u ->
  Host u = h ++ ":"%char :: port ->
  port <> [] ->
  Forall (fun c => is_digit c = true) port ->
  isECRURL url_Parse url = false /\
  parseECRURL url_Parse url
  = Err (lit "URL does not match ECR registry pattern: " ++ Host u).
Proof.
  intros E Hh Hne Hd.
  assert (Hn : forall a r, ~ ecr_host_shape (Host u) a r).
  { intros a r. rewrite Hh. apply host_with_port_no_shape; assumption. }
  split; [|apply parseECRURL_no_shape; assumption].
  destruct (isECRURL url_Parse url) eqn:Ei; [|reflexivity].
  apply isECRURL_true in Ei. destruct Ei as (u' & a & r & E' & Hs).
  rewrite E in E'. injection E' as <-. destruct (Hn _ _ Hs).
Qed.

Variable Session : Type.
Variable NewSession : awsConfig -> result Session.

(** X8: with an account and a region both configured the URL is not
    looked at: any two URLs, ECR or not, give the same result. *)
Theorem configure_ignores_url (cfg : ECRConfig) (url url' : str) :
  AccountID cfg <> [] ->
  Region cfg <> [] ->
  configureECRAuth url_Parse NewSession cfg url
  = configureECRAuth url_Parse NewSession cfg url'.
Proof.
  intros Ha Hr. unfold configureECRAuth.
  apply is_empty_false in Ha. apply is_empty_false in Hr.
  rewrite Ha, Hr. reflexivity.
Qed.

(** X9: with the account or the region left to the URL, a URL that
    does not parse or whose host is not of the ECR shape makes
    [configureECRAuth] fail with [failed to parse ECR URL <url>: ...],
    whatever the rest of the configuration and whether or not a
    session could be made. *)
Theorem configure_needs_ecr_url (cfg : ECRConfig) (url : str) :
  AccountID cfg = [] \/ Region cfg = [] ->
  (~ exists u a r, url_Parse url = Ok u /\ ecr_host_shape (Host u) a r) ->
  exists e,
    configureECRAuth url_Parse NewSession cfg url
    = Err (lit "failed to parse ECR URL " ++ url ++ lit ": " ++ e).
Proof.
  intros Hc Hn. unfold configureECRAuth.
  assert (Hb : is_empty (AccountID cfg) || is_empty (Region cfg) = true).
  { apply orb_true_iff. destruct Hc as [-> | ->]; auto. }
  rewrite Hb.
  destruct (parseECRURL url_Parse url) as [[a r]|e] eqn:E.
  - exfalso. apply Hn. apply parseECRURL_Ok in E.
    destruct E as (u & E1 & E2). eauto.
  - eauto.
Qed.

(** The account and the region [configureECRAuth] settles on. *)
Lemma configure_Ok (cfg : ECRConfig) (url : str) (sess : Session)
  (c : ecrCredentials) :
  configureECRAuth url_Parse NewSession cfg url = Ok (sess, c) ->
  exists region config,
    NewSession config = Ok sess /\
    Config_Region config = region /\
    Config_Credentials config =
      (if negb (is_empty (AccessKeyID cfg))
          && negb (is_empty (SecretAccessKey cfg))
       then Some (StaticCredentials (AccessKeyID cfg) (SecretAccessKey cfg)
                    (SessionToken cfg))
       else if negb (is_empty (Profile cfg))
       then Some (SharedCredentials [] (Profile cfg))
       else None) /\
    c = {| registryID := registryID c; lifetime := Lifetime cfg;
           username := []; password := []; expiry := zero |} /\
    ((AccountID cfg <> [] /\ Region cfg <> [] /\
      registryID c = AccountID cfg /\ region = Region cfg) \/
     ((AccountID cfg = [] \/ Region cfg = []) /\
      exists u a r,
        url_Parse url = Ok u /\ ecr_host_shape (Host u) a r /\
        registryID c = (if is_empty (AccountID cfg) then a else AccountID cfg) /\
        region = (if is_empty (Region cfg) then r else Region cfg))).
Proof.
  unfold configureECRAuth. cbv zeta.
  destruct (is_empty (AccountID cfg) || is_empty (Region cfg)) eqn:Hb.
  - destruct (parseECRURL url_Parse url) as [[a r]|e] eqn:E; [|discriminate].
    match goal with
    | |- context [NewSession ?cf] =>
        destruct (NewSession cf) as [s|e] eqn:En; [|discriminate]
    end.
    intros [= <- <-]. do 2 eexists. split; [exact En|].
    split; [reflexivity|]. split; [reflexivity|]. split; [reflexivity|].
    right. split.
    + apply orb_true_iff in Hb.
      destruct Hb as [Hb|Hb]; apply is_empty_true in Hb; auto.
    + apply parseECRURL_Ok in E. destruct E as (u & E1 & E2).
      exists u, a, r. simpl. auto.
  - match goal with
    | |- context [NewSession ?cf] =>
        destruct (NewSession cf) as [s|e] eqn:En; [|discriminate]
    end.
    intros [= <- <-]. do 2 eexists. split; [exact En|].
    split; [reflexivity|]. split; [reflexivity|]. split; [reflexivity|].
    left. apply orb_false_iff in Hb. destruct Hb as [Ha Hr].
    apply is_empty_false in Ha. apply is_empty_false in Hr. simpl. auto.
Qed.

(** X10: the struct [configureECRAuth] returns has no pair yet, the
    lifetime of the configuration, and a registry that is never empty:
    the configured account when there is one (even when the URL names
    another), the account read from the URL otherwise. *)
Theorem configure_store (cfg : ECRConfig) (url : str) (sess : Session)
  (c : ecrCredentials) :
  configureECRAuth url_Parse NewSession cfg url = Ok (sess, c) ->
  username c = [] /\ password c = [] /\ lifetime c = Lifetime cfg /\
  registryID c <> [] /\
  (AccountID cfg <> [] -> registryID c = AccountID cfg) /\
  (AccountID cfg = [] ->
   exists u r, url_Parse url = Ok u /\ ecr_host_shape (Host u) (registryID c) r).
Proof.
  intros H. apply configure_Ok in H.
  destruct H as (region & config & _ & _ & _ & Hc & Hcase).
  rewrite Hc. cbn [username password lifetime registryID].
  split; [reflexivity|]. split; [reflexivity|]. split; [reflexivity|].
  destruct Hcase as [(Ha & _ & Hr & _)|(_ & u & a & r & E & Hs & Hr & _)].
  - split; [congruence|]. split; [auto|]. intros Hx. contradiction.
  - destruct (AccountID cfg) as [|x acc] eqn:Ea; simpl in Hr.
    + subst a. split; [apply Hs|]. split; [intros Hx; congruence|].
      intros _. eauto.
    + split; [congruence|]. split; [auto|]. discriminate.
Qed.

(** X11: the session is made for the configured region, or for the
    region read from the URL when none is configured; with the static
    keys when the access key and the secret are both set, the profile
    then being ignored; with the shared credentials of the profile
    when a key is missing and a profile is set; and with no
    credentials of its own otherwise. *)
Theorem configure_session (cfg : ECRConfig) (url : str) (sess : Session)
  (c : ecrCredentials) :
  configureECRAuth url_Parse NewSession cfg url = Ok (sess, c) ->
  exists config,
    NewSession config = Ok sess /\
    (Region cfg <> [] -> Config_Region config = Region cfg) /\
    (Region cfg = [] ->
     exists u a, url_Parse url = Ok u /\
                 ecr_host_shape (Host u) a (Config_Region config)) /\
    (AccessKeyID cfg <> [] -> SecretAccessKey cfg <> [] ->
     Config_Credentials config
     = Some (StaticCredentials (AccessKeyID cfg) (SecretAccessKey cfg)
               (SessionToken cfg))) /\
    (AccessKeyID cfg = [] \/ SecretAccessKey cfg = [] ->
     Profile cfg <> [] ->
     Config_Credentials config = Some (SharedCredentials [] (Profile cfg))) /\
    (AccessKeyID cfg = [] \/ SecretAccessKey cfg = [] ->
     Profile cfg = [] ->
     Config_Credentials config = None).
Proof.
  intros H. apply configure_Ok in H.
  destruct H as (region & config & En & Hreg & Hcred & _ & Hcase).
  exists config. split; [exact En|]. split; [|split].
  - intros Hr.
    destruct Hcase as [(_ & _ & _ & Hx)|(_ & u & a & r & _ & _ & _ & Hx)].
    + congruence.
    + apply is_empty_false in Hr. rewrite Hr in Hx. congruence.
  - intros Hr.
    destruct Hcase as [(_ & Hx & _)|(_ & u & a & r & E & Hs & _ & Hx)].
    + contradiction.
    + rewrite Hr in Hx. simpl in Hx. exists u, a.
      rewrite Hreg, Hx. auto.
  - rewrite Hcred. split; [|split].
    + intros Hk Hs. apply is_empty_false in Hk. apply is_empty_false in Hs.
      rewrite Hk, Hs. reflexivity.
    + intros Hk Hp. apply is_empty_false in Hp. rewrite Hp.
      destruct Hk as [-> | ->]; simpl; [reflexivity|].
      rewrite andb_false_r. reflexivity.
    + intros Hk ->.
      destruct Hk as [-> | ->]; simpl; [reflexivity|].
      rewrite andb_false_r. reflexivity.
Qed.

(** X12: the first call of [Basic] on the struct [configureECRAuth]
    returns always calls the client, once, for the registry of the
    struct alone, at whatever instant and with whatever lifetime. *)
Theorem configured_store_first_call (cfg : ECRConfig) (url : str)
  (sess : Session) (c : ecrCredentials)
  (base64_DecodeString : str -> result str) (now : Time) client :
  configureECRAuth url_Parse NewSession cfg url = Ok (sess, c) ->
  exists lvl format args,
    snd (Basic base64_DecodeString c now client)
    = [GetAuthorizationToken {| RegistryIds := [registryID c] |};
       Log lvl format args].
Proof.
  intros H. apply configure_Ok in H.
  destruct H as (region & config & _ & _ & _ & Hc & Hcase).
  assert (Hne : registryID c <> []).
  { destruct Hcase as [(Ha & _ & Hr & _)|(_ & u & a & r & _ & Hs & Hr & _)].
    - congruence.
    - destruct (AccountID cfg) eqn:Ea; simpl in Hr.
      + subst a. apply Hs.
      + congruence. }
  unfold Basic.
  rewrite (proj2 (attempted_test c now)).
  - cbv zeta.
    destruct (CacheMoreFacts.finishRefresh_shape base64_DecodeString c now
                (client (tokenInput c)))
      as (creds & c' & lvl & format & args & E & _).
    rewrite E. cbn [snd]. exists lvl, format, args.
    unfold tokenInput. apply is_empty_false in Hne. rewrite Hne. reflexivity.
  - left. rewrite Hc. reflexivity.
Qed.

End Library.

(** *** On the configurations of the tests *)

Import Fixtures.

Lemma url_with_port_is_not_ecr_witness :
  isECRURL simple_url_parse
    (lit "https://123456789012.dkr.ecr.us-west-2.amazonaws.com:443") = false /\
  parseECRURL simple_url_parse
    (lit "https://123456789012.dkr.ecr.us-west-2.amazonaws.com:443")
  = Err (lit "URL does not match ECR registry pattern: 123456789012.dkr.ecr.us-west-2.amazonaws.com:443").
Proof.
  apply (@url_with_port_is_not_ecr simple_url_parse
           (lit "https://123456789012.dkr.ecr.us-west-2.amazonaws.com:443")
           {| Host := lit "123456789012.dkr.ecr.us-west-2.amazonaws.com:443" |}
           (lit "123456789012.dkr.ecr.us-west-2.amazonaws.com") (lit "443")).
  - vm_compute. reflexivity.
  - reflexivity.
  - discriminate.
  - repeat constructor.
Defined.

Lemma configure_ignores_url_witness :
  configureECRAuth simple_url_parse session_ok test_config
    (lit "https://123456789012.dkr.ecr.us-west-2.amazonaws.com")
  = configureECRAuth simple_url_parse session_ok test_config
      (lit "https://registry-1.docker.io").
Proof.
  apply (@configure_ignores_url simple_url_parse awsConfig session_ok
           test_config); discriminate.
Defined.

Lemma configure_needs_ecr_url_witness :
  exists e,
    configureECRAuth simple_url_parse session_ok empty_config
      (lit "https://registry-1.docker.io")
    = Err (lit "failed to parse ECR URL https://registry-1.docker.io: " ++ e).
Proof.
  apply (@configure_needs_ecr_url simple_url_parse awsConfig session_ok
           empty_config (lit "https://registry-1.docker.io")).
  - left. reflexivity.
  - intros (u & a & r & E & Hs).
    assert (Ep : parseECRURL simple_url_parse
                   (lit "https://registry-1.docker.io") = Ok (a, r))
      by (apply parseECRURL_Ok; eauto).
    vm_compute in Ep. discriminate.
Defined.

(** The account configured wins over the one of the URL. *)
Lemma configure_store_witness :
  let c := {| registryID := lit "123456789012"; lifetime := Some Hour;
              username := []; password := []; expiry := zero |} in
  username c = [] /\ password c = [] /\
  lifetime c = Lifetime test_config /\
  registryID c <> [] /\
  (AccountID test_config <> [] -> registryID c = AccountID test_config) /\
  (AccountID test_config = [] ->
   exists u r,
     simple_url_parse (lit "https://42.dkr.ecr.eu-west-1.amazonaws.com")
     = Ok u /\ ecr_host_shape (Host u) (registryID c) r).
Proof.
  intros c.
  apply (@configure_store simple_url_parse awsConfig session_ok test_config
           (lit "https://42.dkr.ecr.eu-west-1.amazonaws.com")
           {| Config_Region := lit "us-west-2";
              Config_Credentials :=
                Some (StaticCredentials (lit "test-key") (lit "test-secret") []) |}
           c).
  vm_compute. reflexivity.
Defined.

Lemma configure_session_witness :
  exists config,
    session_ok config
    = Ok {| Config_Region := lit "eu-west-1"; Config_Credentials := None |} /\
    (Region empty_config <> [] -> Config_Region config = Region empty_config) /\
    (Region empty_config = [] ->
     exists u a,
       simple_url_parse (lit "https://42.dkr.ecr.eu-west-1.amazonaws.com/x")
       = Ok u /\ ecr_host_shape (Host u) a (Config_Region config)) /\
    (AccessKeyID empty_config <> [] -> SecretAccessKey empty_config <> [] ->
     Config_Credentials config
     = Some (StaticCredentials (AccessKeyID empty_config)
               (SecretAccessKey empty_config) (SessionToken empty_config))) /\
    (AccessKeyID empty_config = [] \/ SecretAccessKey empty_config = [] ->
     Profile empty_config <> [] ->
     Config_Credentials config
     = Some (SharedCredentials [] (Profile empty_config))) /\
    (AccessKeyID empty_config = [] \/ SecretAccessKey empty_config = [] ->
     Profile empty_config = [] ->
     Config_Credentials config = None).
Proof.
  apply (@configure_session simple_url_parse awsConfig session_ok empty_config
           (lit "https://42.dkr.ecr.eu-west-1.amazonaws.com/x")
           {| Config_Region := lit "eu-west-1"; Config_Credentials := None |}
           {| registryID := lit "42"; lifetime := None;
              username := []; password := []; expiry := zero |}).
  vm_compute. reflexivity.
Defined.

Lemma configured_store_first_call_witness :
  exists lvl format args,
    snd (Basic base64_decode
           {| registryID := lit "42"; lifetime := None;
              username := []; password := []; expiry := zero |}
           (at_second 1000) (client_with "QVdTOnNlY3JldA=="))
    = [GetAuthorizationToken {| RegistryIds := [lit "42"] |};
       Log lvl format args].
Proof.
  apply (@configured_store_first_call simple_url_parse awsConfig session_ok
           empty_config (lit "https://42.dkr.ecr.eu-west-1.amazonaws.com/x")
           {| Config_Region := lit "eu-west-1"; Config_Credentials := None |}
           {| registryID := lit "42"; lifetime := None;
              username := []; password := []; expiry := zero |}
           base64_decode (at_second 1000) (client_with "QVdTOnNlY3JldA==")).
  vm_compute. reflexivity.
Defined.

End ConfigureFacts.

(** ** More on concurrent callers: every run, whatever the client *)

Module CallersMoreFacts.
Import Strings GoTime Proxy Callers ProxyCacheFacts CallersFacts.

Section Runs.
Variable base64_DecodeString : str -> result str.
Variable client :
  nat -> GetAuthorizationTokenInput -> result GetAuthorizationTokenOutput.
Variable clock : Time -> Prop.

Lemma step_calls (st st' : state) :
  exchange_calls (events st) <= length (filter past_call (threads st)) ->
  step base64_DecodeString client clock st st' ->
  exchange_calls (events st') <= length (filter past_call (threads st')).
Proof.
  intros Hc (i & now & _ & He). unfold exec in He.
  destruct (nth_error (threads st) i) as [t|] eqn:Hn; [|discriminate].
  destruct (update_split _ _ Hn) as (l1 & l2 & Hl & Hu).
  rewrite Hl, count_app in Hc.
  destruct t as [| |t0|t0 answer|creds]; simpl in Hc.
  - destruct (mutex st); [discriminate|]. injection He as <-.
    simpl. rewrite Hu, count_app. simpl. lia.
  - destruct (cached (cred st) now); injection He as <-; simpl;
      rewrite Hu, count_app; simpl; lia.
  - injection He as <-. simpl.
    rewrite Hu, count_app, exchange_calls_app. simpl.
    change (exchange_calls [GetAuthorizationToken (tokenInput (cred st))])
      with 1. lia.
  - destruct (CacheMoreFacts.finishRefresh_shape base64_DecodeString
                (cred st) t0 answer)
      as (creds & c' & lvl & format & args & E & _).
    rewrite E in He. injection He as <-. simpl.
    rewrite Hu, count_app, exchange_calls_app. simpl.
    change (exchange_calls [Log lvl format args]) with 0. lia.
  - discriminate.
Qed.

(** X13: in every run of [n] callers, whatever the cache holds and
    whatever the client answers, the mutex is taken exactly while one
    caller is between [Lock] and its return, and by that caller alone;
    and while a caller has not returned some caller can take a step:
    the callers never block one another for good. *)
Theorem callers_mutual_exclusion (n : nat) (c : ecrCredentials) (st : state) :
  reachable base64_DecodeString client clock (init n c) st ->
  mutex_exclusive st /\
  forall now, clock now -> ~ all_returned st ->
              exists st', step base64_DecodeString client clock st st'.
Proof.
  intros Hr.
  assert (Hm : mutex_exclusive st).
  { induction Hr as [|st st' _ IH Hstep].
    - unfold mutex_exclusive, init. simpl.
      induction n as [|k IHk]; simpl; [reflexivity|exact IHk].
    - exact (step_mutex IH Hstep). }
  split; [exact Hm|].
  intros now Hclk Hnot.
  exact (@callers_progress base64_DecodeString client clock st now
           Hclk Hm Hnot).
Qed.

(** X14: in every run of [n] callers, whatever the client answers, no
    caller calls the client twice: the calls made never exceed the
    callers that have got past their call, nor [n]. *)
Theorem callers_calls_bounded (n : nat) (c : ecrCredentials) (st : state) :
  reachable base64_DecodeString client clock (init n c) st ->
  exchange_calls (events st) <= length (filter past_call (threads st)) /\
  exchange_calls (events st) <= n.
Proof.
  intros Hr.
  assert (Hc : exchange_calls (events st)
               <= length (filter past_call (threads st))).
  { induction Hr as [|st st' _ IH Hstep].
    - simpl. unfold exchange_calls. simpl. lia.
    - exact (step_calls IH Hstep). }
  split; [exact Hc|].
  pose proof (reachable_length Hr) as Hlen. simpl in Hlen.
  rewrite repeat_length in Hlen.
  pose proof (filter_length_le past_call (threads st)). lia.
Qed.

End Runs.

Import Fixtures.

Lemma two_callers_reachable :
  reachable base64_decode (fun _ => client_failing) run_clock
    (init 2 stale_cache)
    (final_state (fun _ => client_failing) two_callers (init 2 stale_cache)).
Proof.
  apply run_reachable with (schedule := two_callers)
                           (st := init 2 stale_cache).
  - unfold two_callers, run_clock, at_second.
    repeat constructor; simpl; lia.
  - apply reach_here.
  - vm_compute. reflexivity.
Qed.

Lemma callers_mutual_exclusion_witness :
  mutex_exclusive
    (final_state (fun _ => client_failing) two_callers (init 2 stale_cache)).
Proof.
  apply (@callers_mutual_exclusion base64_decode (fun _ => client_failing)
           run_clock 2 stale_cache
           (final_state (fun _ => client_failing) two_callers
              (init 2 stale_cache))).
  exact two_callers_reachable.
Defined.

Lemma callers_calls_bounded_witness :
  exchange_calls
    (events (final_state (fun _ => client_failing) two_callers
               (init 2 stale_cache))) <= 2.
Proof.
  apply (@callers_calls_bounded base64_decode (fun _ => client_failing)
           run_clock 2 stale_cache
           (final_state (fun _ => client_failing) two_callers
              (init 2 stale_cache))).
  exact two_callers_reachable.
Defined.

End CallersMoreFacts.

(** ** More on the importer *)

Module ImporterMoreFacts.
Import Strings Regexp Ecrmirror StringsFacts RegexpFacts EcrmirrorFacts.

Section World.
Variable env : Env.
Variable d : ecrFetcher.

(** X15: when the wrapped driver has the content, [GetContent] returns
    it as it is after that one call: the key is not matched, nothing
    is printed and no command is run, whatever the key. *)
Theorem GetContent_hit_no_import (h : list event) (path : str) (out : bytes) :
  driver_GetContent env h path = Ok out ->
  GetContent env d path h = (Ok out, h ++ [StoreGetContent path]).
Proof.
  intros E. unfold GetContent, bind, storeGetContent, ret. rewrite E.
  reflexivity.
Qed.

(** X16: when the wrapped driver fails, the key is matched and the
    three commands succeed, the wrapped driver is called once more,
    after the push, and its answer, content or error, is the result;
    there is no third call. *)
Theorem GetContent_import_then_retry (h : list event) (path repo tag : str)
  (e : error) :
  driver_GetContent env h path = Err e ->
  matchImportKey path = Some (repo, tag) ->
  cmd_Run env (h ++ firstn 2 (import_events d path repo tag))
    (pull_command d repo tag) = None ->
  cmd_Run env (h ++ firstn 4 (import_events d path repo tag))
    (tag_command d repo tag) = None ->
  cmd_Run env (h ++ firstn 6 (import_events d path repo tag))
    (push_command d repo tag) = None ->
  GetContent env d path h =
  (driver_GetContent env (h ++ import_events d path repo tag) path,
   h ++ import_events d path repo tag ++ [StoreGetContent path]).
Proof.
  intros E Hm H1 H2 H3.
  unfold import_events, pull_command, tag_command, push_command in *.
  cbn [firstn] in *.
  unfold GetContent, bind, storeGetContent. rewrite E, Hm.
  unfold pullAndImportFromECR, bind, fmtPrint, cmdRun, logInfof, ret.
  repeat (rewrite <- app_assoc; cbn [app]).
  rewrite H1. repeat (rewrite <- app_assoc; cbn [app]).
  rewrite H2. repeat (rewrite <- app_assoc; cbn [app]).
  rewrite H3. repeat (rewrite <- app_assoc; cbn [app]).
  reflexivity.
Qed.

(** X17: when the pull succeeds and [docker tag] fails, the result is
    the error [failed to pull from ECR: ] followed by the text of the
    error of the tag; the push is not run and the wrapped driver is
    not called again. *)
Theorem GetContent_tag_fails (h : list event) (path repo tag : str)
  (e terr : error) :
  driver_GetContent env h path = Err e ->
  matchImportKey path = Some (repo, tag) ->
  cmd_Run env (h ++ firstn 2 (import_events d path repo tag))
    (pull_command d repo tag) = None ->
  cmd_Run env (h ++ firstn 4 (import_events d path repo tag))
    (tag_command d repo tag) = Some terr ->
  GetContent env d path h =
  (Err (lit "failed to pull from ECR: " ++ terr),
   h ++ firstn 5 (import_events d path repo tag)).
Proof.
  intros E Hm H1 H2.
  unfold import_events, pull_command, tag_command, push_command in *.
  cbn [firstn] in *.
  unfold GetContent, bind, storeGetContent. rewrite E, Hm.
  unfold pullAndImportFromECR, bind, fmtPrint, cmdRun, logInfof, ret.
  repeat (rewrite <- app_assoc; cbn [app]).
  rewrite H1. repeat (rewrite <- app_assoc; cbn [app]).
  rewrite H2. repeat (rewrite <- app_assoc; cbn [app]).
  reflexivity.
Qed.

(** X18: when the pull and the tag succeed and [docker push] fails,
    the result is the error [failed to pull from ECR: ] followed by
    the text of the error of the push, and the wrapped driver is not
    called again. *)
Theorem GetContent_push_fails (h : list event) (path repo tag : str)
  (e perr : error) :
  driver_GetContent env h path = Err e ->
  matchImportKey path = Some (repo, tag) ->
  cmd_Run env (h ++ firstn 2 (import_events d path repo tag))
    (pull_command d repo tag) = None ->
  cmd_Run env (h ++ firstn 4 (import_events d path repo tag))
    (tag_command d repo tag) = None ->
  cmd_Run env (h ++ firstn 6 (import_events d path repo tag))
    (push_command d repo tag) = Some perr ->
  GetContent env d path h =
  (Err (lit "failed to pull from ECR: " ++ perr),
   h ++ firstn 7 (import_events d path repo tag)).
Proof.
  intros E Hm H1 H2 H3.
  unfold import_events, pull_command, tag_command, push_command in *.
  cbn [firstn] in *.
  unfold GetContent, bind, storeGetContent. rewrite E, Hm.
  unfold pullAndImportFromECR, bind, fmtPrint, cmdRun, logInfof, ret.
  repeat (rewrite <- app_assoc; cbn [app]).
  rewrite H1. repeat (rewrite <- app_assoc; cbn [app]).
  rewrite H2. repeat (rewrite <- app_assoc; cbn [app]).
  rewrite H3. repeat (rewrite <- app_assoc; cbn [app]).
  reflexivity.
Qed.

(** The events of a call extend the history by a prefix of the events
    of an import, and one more call of the wrapped driver when that
    prefix is the whole. *)
Lemma GetContent_events (h : list event) (path : str) :
  snd (GetContent env d path h) = h ++ [StoreGetContent path] \/
  exists repo tag,
    matchImportKey path = Some (repo, tag) /\
    (exists e, driver_GetContent env h path = Err e) /\
    (snd (GetContent env d path h)
     = h ++ firstn 3 (import_events d path repo tag) \/
     snd (GetContent env d path h)
     = h ++ firstn 5 (import_events d path repo tag) \/
     snd (GetContent env d path h)
     = h ++ firstn 7 (import_events d path repo tag) \/
     snd (GetContent env d path h)
     = h ++ import_events d path repo tag ++ [StoreGetContent path]).
Proof.
  unfold GetContent, bind, storeGetContent.
  destruct (driver_GetContent env h path) as [out|e] eqn:E;
    [left; reflexivity|].
  destruct (matchImportKey path) as [[repo tag]|] eqn:Hm;
    [|left; reflexivity].
  right. exists repo, tag. split; [reflexivity|]. split; [eauto|].
  unfold import_events, pull_command, tag_command, push_command.
  cbn [firstn].
  unfold pullAndImportFromECR, bind, fmtPrint, cmdRun, logInfof, ret.
  repeat (rewrite <- app_assoc; cbn [app]).
  destruct (cmd_Run env _ _) as [e1|].
  { left. cbn [snd]. repeat (rewrite <- app_assoc; cbn [app]). reflexivity. }
  repeat (rewrite <- app_assoc; cbn [app]).
  destruct (cmd_Run env _ _) as [e2|].
  { right; left. cbn [snd]. repeat (rewrite <- app_assoc; cbn [app]).
    reflexivity. }
  repeat (rewrite <- app_assoc; cbn [app]).
  destruct (cmd_Run env _ _) as [e3|].
  { right; right; left. cbn [snd].
    repeat (rewrite <- app_assoc; cbn [app]). reflexivity. }
  right; right; right. cbn [snd].
  repeat (rewrite <- app_assoc; cbn [app]). reflexivity.
Qed.

(** X19: whatever the driver and the commands answer, one call of
    [GetContent] calls the wrapped driver once or twice, for the key
    asked and no other; runs at most three commands, all of them
    [docker], and none unless the first call failed; and calls the
    driver the second time only after three commands have run. *)
Theorem GetContent_bounds (h : list event) (path : str) :
  exists tr,
    snd (GetContent env d path h) = h ++ tr /\
    1 <= length (store_calls tr) <= 2 /\
    Forall (fun p => p = path) (store_calls tr) /\
    length (commands tr) <= 3 /\
    Forall (fun argv => hd [] argv = lit "docker") (commands tr) /\
    (length (store_calls tr) = 2 -> length (commands tr) = 3) /\
    (commands tr <> [] -> exists e, driver_GetContent env h path = Err e).
Proof.
  destruct (GetContent_events h path)
    as [E|(repo & tag & _ & He & [E|[E|[E|E]]])];
    rewrite E; eexists; (split; [reflexivity|]);
    unfold import_events, pull_command, tag_command, push_command;
    cbn [firstn app store_calls commands flat_map length];
    repeat split; try lia; repeat constructor; try (intros; assumption);
    try discriminate; try (intros H; exfalso; apply H; reflexivity).
Qed.


End World.

(** X20: a key composed from a repository and a tag, both non-empty and
    free of newlines, the tag free of [/], is matched and gives back
    that repository and that tag, whatever [/] the repository has. *)
Theorem matchImportKey_of_key (repo tag : str) :
  repo <> [] -> tag <> [] ->
  ~ In newline repo -> ~ In newline tag ->
  ~ In "/"%char tag ->
  matchImportKey
    (lit "/docker/registry/v2/repositories/" ++ repo
       ++ lit "/_manifests/tags/" ++ tag ++ lit "/current/link")
  = Some (repo, tag).
Proof.
  intros Hr Ht Hnr Hnt Hslash.
  apply matchImportKey_longest. split.
  - repeat split; assumption.
  - intros repo' tag' (E & Hr' & Ht' & _ & _).
    destruct (Nat.le_gt_cases (length repo') (length repo)) as [|Hlt];
      [assumption|].
    exfalso. apply Hslash.
    apply app_inv_head in E.
    assert (Hlen : length repo + length tag = length repo' + length tag').
    { apply (f_equal (@length ascii)) in E. rewrite !length_app in E.
      lia. }
    assert (Hn : nth_error (repo ++ lit "/_manifests/tags/" ++ tag
                              ++ lit "/current/link")
                   (length repo' + 16) = Some "/"%char).
    { rewrite E. rewrite nth_error_app2 by lia.
      replace (length repo' + 16 - length repo') with 16 by lia.
      reflexivity. }
    rewrite nth_error_app2 in Hn by lia.
    rewrite nth_error_app2 in Hn
      by (change (length (lit "/_manifests/tags/")) with 17; lia).
    change (length (lit "/_manifests/tags/")) with 17 in Hn.
    rewrite nth_error_app1 in Hn by (destruct tag'; [congruence|simpl in *; lia]).
    apply nth_error_In in Hn. exact Hn.
Qed.

(** X21: a key with a newline in it, anywhere, is never matched: no
    import is attempted for it. *)
Theorem matchImportKey_newline (path : str) :
  In newline path -> matchImportKey path = None.
Proof.
  intros Hin. apply matchImportKey_none.
  intros (repo & tag & E & _ & _ & Hnr & Hnt).
  rewrite E in Hin.
  apply in_app_or in Hin. destruct Hin as [Hin|Hin].
  { simpl in Hin.
    repeat (destruct Hin as [Hin|Hin]; [discriminate Hin|]). exact Hin. }
  apply in_app_or in Hin. destruct Hin as [Hin|Hin]; [contradiction|].
  apply in_app_or in Hin. destruct Hin as [Hin|Hin].
  { simpl in Hin.
    repeat (destruct Hin as [Hin|Hin]; [discriminate Hin|]). exact Hin. }
  apply in_app_or in Hin. destruct Hin as [Hin|Hin]; [contradiction|].
  simpl in Hin.
  repeat (destruct Hin as [Hin|Hin]; [discriminate Hin|]). exact Hin.
Qed.


Import Fixtures.

Lemma GetContent_hit_no_import_witness :
  GetContent env_has_content fetcher tag_link []
  = (Ok (lit "sha256:0123"), [StoreGetContent tag_link]).
Proof.
  apply (@GetContent_hit_no_import env_has_content fetcher [] tag_link
           (lit "sha256:0123")).
  reflexivity.
Defined.

Lemma GetContent_import_then_retry_witness :
  GetContent env_import_works fetcher tag_link []
  = (Ok (lit "sha256:0123"),
     import_events fetcher tag_link (lit "packoff/cv") (lit "1.0.0")
       ++ [StoreGetContent tag_link]).
Proof.
  apply (@GetContent_import_then_retry env_import_works fetcher [] tag_link
           (lit "packoff/cv") (lit "1.0.0") (lit "Path not found")).
  - reflexivity.
  - vm_compute. reflexivity.
  - reflexivity.
  - reflexivity.
  - reflexivity.
Defined.

Lemma GetContent_tag_fails_witness :
  GetContent (env_fails_at "tag") fetcher tag_link []
  = (Err (lit "failed to pull from ECR: exit status 1"),
     firstn 5 (import_events fetcher tag_link (lit "packoff/cv") (lit "1.0.0"))).
Proof.
  apply (@GetContent_tag_fails (env_fails_at "tag") fetcher [] tag_link
           (lit "packoff/cv") (lit "1.0.0") (lit "Path not found")
           (lit "exit status 1")).
  - reflexivity.
  - vm_compute. reflexivity.
  - reflexivity.
  - reflexivity.
Defined.

Lemma GetContent_push_fails_witness :
  GetContent (env_fails_at "push") fetcher tag_link []
  = (Err (lit "failed to pull from ECR: exit status 1"),
     firstn 7 (import_events fetcher tag_link (lit "packoff/cv") (lit "1.0.0"))).
Proof.
  apply (@GetContent_push_fails (env_fails_at "push") fetcher [] tag_link
           (lit "packoff/cv") (lit "1.0.0") (lit "Path not found")
           (lit "exit status 1")).
  - reflexivity.
  - vm_compute. reflexivity.
  - reflexivity.
  - reflexivity.
  - reflexivity.
Defined.

Lemma matchImportKey_of_key_witness :
  matchImportKey tag_link = Some (lit "packoff/cv", lit "1.0.0").
Proof.
  apply (@matchImportKey_of_key (lit "packoff/cv") (lit "1.0.0")).
  - discriminate.
  - discriminate.
  - simpl. intros H.
    repeat (destruct H as [H|H]; [discriminate H|]). exact H.
  - simpl. intros H.
    repeat (destruct H as [H|H]; [discriminate H|]). exact H.
  - simpl. intros H.
    repeat (destruct H as [H|H]; [discriminate H|]). exact H.
Defined.

Lemma matchImportKey_newline_witness :
  matchImportKey (tag_link ++ [newline]) = None.
Proof.
  apply (@matchImportKey_newline (tag_link ++ [newline])).
  apply in_or_app. right. left. reflexivity.
Defined.


End ImporterMoreFacts.
